(** * Context7 MCP server and relay: the context stack store

    A shallow embedding of [handle_mcp_request]
    (src/context7-mcp-update/context7_server.py) and of the request that
    [proxy] builds (src/context7-mcp-update/relay.py and
    src/context7-relay-update/relay.py), with the properties of the
    per-user context stack proved over it.

    The two module-level dictionaries [contexts] and [context_stacks] are
    finite maps keyed by strings; the handler is a function from the
    store before the call to the response and the store after it.  The
    one source of non-determinism, [uuid.uuid4()], is an argument of the
    handler: the eight characters [str(uuid.uuid4())[:8]] that the call
    would draw. *)

From Stdlib Require Import ZArith Ascii String.
From Stdlib Require Import Floats.SpecFloat.
From stdpp Require Import base option list gmap strings.

Set Warnings "-register-all,-clear-no-such-hyp".

(** ** JSON values, as [json.loads] returns them *)

(** [json.loads] yields [None], [bool], [int], [float], [str], [list] and
    [dict]; a float is kept as its IEEE 754 datum, of which the store only
    ever asks whether it is zero. *)
Inductive json : Type :=
| JNull
| JBool (b : bool)
| JInt (z : Z)
| JFloat (f : spec_float)
| JStr (s : string)
| JArr (items : list json)
| JObj (fields : list (string * json)).

(** Python truthiness, the test behind [if not x]. *)
Definition truthy (j : json) : bool :=
  match j with
  | JNull => false
  | JBool b => b
  | JInt z => negb (Z.eqb z 0)
  | JFloat (S754_zero _) => false
  | JFloat _ => true
  | JStr s => negb (String.eqb s "")
  | JArr items => match items with [] => false | _ => true end
  | JObj fields => match fields with [] => false | _ => true end
  end.

(** ** Request parameters *)

(** The decoded parameter bag.  [CONTEXT_FUNCTIONS] declares [user_id] and
    [context_id] as strings and [context] as a JSON document; a field is
    [None] when [parameters.get] returns [None], that is when the key is
    absent or carries a JSON null. *)
Record parameters : Type := Parameters {
  param_user_id : option string;
  param_context : option json;
  param_context_id : option string
}.

(** [{}], the parameters of a request without a body. *)
Definition no_parameters : parameters := Parameters None None None.

(** The raw body of the request as [json.loads(body) if body else {}] sees
    it: empty, bytes that are no text, text that is not JSON, a JSON
    object, or JSON of another kind (an array, a string, a number, a
    boolean, null). *)
Inductive request_body : Type :=
| Body_empty
| Body_undecodable
| Body_invalid
| Body_json (p : parameters)
| Body_not_object.

(** [if not user_id] on an optional string: the string when it is truthy. *)
Definition required_str (o : option string) : option string :=
  match o with
  | Some s => if String.eqb s "" then None else Some s
  | None => None
  end.

(** [if not context_data] on an optional JSON value. *)
Definition required_json (o : option json) : option json :=
  match o with
  | Some j => if truthy j then Some j else None
  | None => None
  end.

(** ** The store *)

Record store : Type := Store {
  contexts : gmap string (gmap string json);
  context_stacks : gmap string (list string)
}.

Definition empty_store : store := Store ∅ ∅.

(** ** Responses *)

(** The exceptions the body of the handler can raise. *)
Inductive exn : Type :=
| JSONDecodeError
| UnicodeDecodeError
| AttributeError
| KeyError (key : string).

(** The dictionaries the handler returns. *)
Inductive response : Type :=
| R_error (msg : string)                          (* {"error": msg} *)
| R_failure (msg : string)                        (* {"error": msg, "success": False} *)
| R_exception (e : exn)                           (* {"error": str(e)} *)
| R_pushed (context_id : string)                  (* {"context_id": .., "success": True} *)
| R_popped (context_id : string) (context : json) (* {"context_id": .., "context": .., "success": True} *)
| R_contexts (l : list (string * json))           (* {"contexts": [..]} *)
| R_found (context_id : string) (context : json)  (* {"context_id": .., "context": .., "success": True} *)
| R_cleared.                                      (* {"success": True} *)

(** The response carries an ["error"] key. *)
Definition is_error (r : response) : bool :=
  match r with
  | R_error _ | R_failure _ | R_exception _ => true
  | _ => false
  end.

(** The response carries ["success": True]. *)
Definition is_success (r : response) : bool :=
  match r with
  | R_pushed _ | R_popped _ _ | R_found _ _ | R_cleared => true
  | _ => false
  end.

(** ** Python list and dict primitives *)

(** [l.pop()]: the list without its last element, and that element;
    [None] on the empty list. *)
Fixpoint list_pop {A : Type} (l : list A) : option (list A * A) :=
  match l with
  | [] => None
  | x :: l' =>
      match list_pop l' with
      | None => Some ([], x)
      | Some (r, y) => Some (x :: r, y)
      end
  end.

(** [d.get(k)] and [d.pop(k, None)] give [None], JSON null, on a miss. *)
Definition dict_get (m : gmap string json) (k : string) : json :=
  default JNull (m !! k).

(** ** The five operations *)

Definition user_id_required : response := R_error "user_id parameter is required".
Definition context_required : response := R_error "context parameter is required".
Definition context_id_required : response := R_error "context_id parameter is required".
Definition no_contexts_to_pop : response := R_failure "No contexts to pop".

Definition not_found (context_id user_id : string) : response :=
  R_failure ("Context with id " +:+ context_id +:+ " not found for user " +:+ user_id).

Definition not_supported (function_name : string) : response :=
  R_error ("Function " +:+ function_name +:+ " not supported").

Definition invalid_json : response := R_error "Invalid JSON in request body".

(** The two [except] clauses of the handler. *)
Definition caught (e : exn) : response :=
  match e with
  | JSONDecodeError => invalid_json
  | _ => R_exception e
  end.

(** [f"ctx_{str(uuid.uuid4())[:8]}"] *)
Definition new_context_id (uuid8 : string) : string := "ctx_" +:+ uuid8.

(** [if user_id not in contexts: contexts[user_id] = {}; context_stacks[user_id] = []] *)
Definition init_user (user_id : string) (s : store) : store :=
  match contexts s !! user_id with
  | Some _ => s
  | None => Store (<[user_id := ∅]> (contexts s)) (<[user_id := []]> (context_stacks s))
  end.

Definition push_context (p : parameters) (uuid8 : string) (s : store) : response * store :=
  match required_str (param_user_id p) with
  | None => (user_id_required, s)
  | Some user_id =>
      match required_json (param_context p) with
      | None => (context_required, s)
      | Some context_data =>
          let s1 := init_user user_id s in
          let context_id := new_context_id uuid8 in
          match contexts s1 !! user_id with
          | None => (caught (KeyError user_id), s1)
          | Some entries =>
              let s2 := Store (<[user_id := <[context_id := context_data]> entries]> (contexts s1))
                              (context_stacks s1) in
              match context_stacks s2 !! user_id with
              | None => (caught (KeyError user_id), s2)
              | Some order =>
                  (R_pushed context_id,
                   Store (contexts s2) (<[user_id := order ++ [context_id]]> (context_stacks s2)))
              end
          end
      end
  end.

Definition pop_context (p : parameters) (s : store) : response * store :=
  match required_str (param_user_id p) with
  | None => (user_id_required, s)
  | Some user_id =>
      match context_stacks s !! user_id ≫= list_pop with
      | None => (no_contexts_to_pop, s)
      | Some (order', context_id) =>
          let s1 := Store (contexts s) (<[user_id := order']> (context_stacks s)) in
          match contexts s1 !! user_id with
          | None => (caught (KeyError user_id), s1)
          | Some entries =>
              (R_popped context_id (dict_get entries context_id),
               Store (<[user_id := delete context_id entries]> (contexts s1)) (context_stacks s1))
          end
      end
  end.

Definition list_contexts (p : parameters) (s : store) : response * store :=
  match required_str (param_user_id p) with
  | None => (user_id_required, s)
  | Some user_id =>
      match context_stacks s !! user_id with
      | None => (R_contexts [], s)
      | Some order =>
          match mapM (λ context_id,
                        entries ← contexts s !! user_id;
                        Some (context_id, dict_get entries context_id)) order with
          | None => (caught (KeyError user_id), s)
          | Some user_contexts => (R_contexts user_contexts, s)
          end
      end
  end.

Definition get_context (p : parameters) (s : store) : response * store :=
  match required_str (param_user_id p) with
  | None => (user_id_required, s)
  | Some user_id =>
      match required_str (param_context_id p) with
      | None => (context_id_required, s)
      | Some context_id =>
          match contexts s !! user_id with
          | None => (not_found context_id user_id, s)
          | Some entries =>
              match entries !! context_id with
              | None => (not_found context_id user_id, s)
              | Some _ => (R_found context_id (dict_get entries context_id), s)
              end
          end
      end
  end.

Definition clear_contexts (p : parameters) (s : store) : response * store :=
  match required_str (param_user_id p) with
  | None => (user_id_required, s)
  | Some user_id =>
      match contexts s !! user_id with
      | None => (R_cleared, s)
      | Some _ =>
          (R_cleared,
           Store (<[user_id := ∅]> (contexts s)) (<[user_id := []]> (context_stacks s)))
      end
  end.

(** ** The dispatcher *)

(** [json.loads(body) if body else {}]: it raises, or yields a dictionary,
    or yields a value that is none ([None] below), on which the
    [parameters.get] that opens each operation raises. *)
Definition load_parameters (body : request_body) : exn + option parameters :=
  match body with
  | Body_empty => inr (Some no_parameters)
  | Body_undecodable => inl UnicodeDecodeError
  | Body_invalid => inl JSONDecodeError
  | Body_json p => inr (Some p)
  | Body_not_object => inr None
  end.

Definition with_parameters (loaded : option parameters)
    (operation : parameters → store → response * store) (s : store) : response * store :=
  match loaded with
  | Some p => operation p s
  | None => (caught AttributeError, s)
  end.

Definition handle_mcp_request (function_name : string) (body : request_body)
    (uuid8 : string) (s : store) : response * store :=
  match load_parameters body with
  | inl e => (caught e, s)
  | inr loaded =>
      if String.eqb function_name "push_context" then
        with_parameters loaded (λ p, push_context p uuid8) s
      else if String.eqb function_name "pop_context" then
        with_parameters loaded pop_context s
      else if String.eqb function_name "list_contexts" then
        with_parameters loaded list_contexts s
      else if String.eqb function_name "get_context" then
        with_parameters loaded get_context s
      else if String.eqb function_name "clear_contexts" then
        with_parameters loaded clear_contexts s
      else (not_supported function_name, s)
  end.

(** ** Runs of the server *)

(** One call: the path segment, the body and the token that [uuid.uuid4]
    yields should the call reach it. *)
Record request : Type := Request {
  req_function : string;
  req_body : request_body;
  req_uuid8 : string
}.

Definition step (r : request) (s : store) : response * store :=
  handle_mcp_request (req_function r) (req_body r) (req_uuid8 r) s.

(** The calls of [reqs] served in turn: their responses and the final store. *)
Fixpoint run (reqs : list request) (s : store) : list response * store :=
  match reqs with
  | [] => ([], s)
  | r :: reqs' =>
      let (resp, s1) := step r s in
      let (resps, s2) := run reqs' s1 in
      (resp :: resps, s2)
  end.

(** The stores the process can be in: it starts with both dictionaries
    empty and only [handle_mcp_request] touches them. *)
Inductive reachable : store → Prop :=
| reachable_empty : reachable empty_store
| reachable_step r s : reachable s → reachable (step r s).2.

Definition push_request (user_id : string) (context : json) (uuid8 : string) : request :=
  Request "push_context" (Body_json (Parameters (Some user_id) (Some context) None)) uuid8.

Definition user_request (function_name user_id : string) : request :=
  Request function_name (Body_json (Parameters (Some user_id) None None)) "".

Definition get_request (user_id context_id : string) : request :=
  Request "get_context" (Body_json (Parameters (Some user_id) None (Some context_id))) "".

(** * Properties *)

(** ** Primitives *)

Lemma required_str_Some (o : option string) (u : string) :
  required_str o = Some u ↔ o = Some u ∧ u ≠ "".
Proof.
  unfold required_str. destruct o as [s|]; [|naive_solver].
  destruct (String.eqb_spec s ""); naive_solver.
Qed.

Lemma required_str_None (o : option string) :
  required_str o = None ↔ o = None ∨ o = Some "".
Proof.
  unfold required_str. destruct o as [s|]; [|naive_solver].
  destruct (String.eqb_spec s ""); naive_solver.
Qed.

Lemma required_json_Some (o : option json) (c : json) :
  required_json o = Some c ↔ o = Some c ∧ truthy c = true.
Proof.
  unfold required_json. destruct o as [j|].
  - destruct (truthy j) eqn:E; split.
    + by intros [= <-].
    + by intros [[= <-] _].
    + done.
    + intros [[= <-] Ht]. congruence.
  - split; [done|]. by intros [? _].
Qed.

Lemma required_json_None (o : option json) :
  required_json o = None ↔ o = None ∨ ∃ c, o = Some c ∧ truthy c = false.
Proof.
  unfold required_json. destruct o as [j|].
  - destruct (truthy j) eqn:E; split.
    + done.
    + intros [|(c & [= <-] & Hc)]; congruence.
    + intros _. right. by exists j.
    + done.
  - split; [by left|done].
Qed.

Lemma list_pop_snoc {A : Type} (l : list A) (x : A) :
  list_pop (l ++ [x]) = Some (l, x).
Proof.
  induction l as [|y l IH]; [done|]. simpl. by rewrite IH.
Qed.

Lemma list_pop_None {A : Type} (l : list A) : list_pop l = None ↔ l = [].
Proof.
  destruct l as [|y l]; [done|]. simpl.
  by destruct (list_pop l) as [[r z]|].
Qed.

Lemma list_pop_Some {A : Type} (l r : list A) (x : A) :
  list_pop l = Some (r, x) ↔ l = r ++ [x].
Proof.
  split; [|intros ->; apply list_pop_snoc].
  revert r. induction l as [|y l IH]; intros r; [done|]. simpl.
  destruct (list_pop l) as [[r' z]|] eqn:E.
  - intros [= <- <-]. by rewrite (IH r').
  - intros [= <- <-]. apply list_pop_None in E. by subst.
Qed.

Lemma new_context_id_inj (t1 t2 : string) :
  new_context_id t1 = new_context_id t2 → t1 = t2.
Proof. unfold new_context_id. simpl. by intros [= H]. Qed.

(** The function names the dispatcher tests for, in its order. *)
Definition function_names : list string :=
  ["push_context"; "pop_context"; "list_contexts"; "get_context"; "clear_contexts"].

Lemma handle_invalid function_name uuid8 s :
  handle_mcp_request function_name Body_invalid uuid8 s = (invalid_json, s).
Proof. done. Qed.

(** The dispatch, one equation per branch of the [if]/[elif] chain. *)
Lemma handle_cases function_name body uuid8 s p :
  load_parameters body = inr (Some p) →
  handle_mcp_request function_name body uuid8 s =
    (if decide (function_name = "push_context") then push_context p uuid8 s
     else if decide (function_name = "pop_context") then pop_context p s
     else if decide (function_name = "list_contexts") then list_contexts p s
     else if decide (function_name = "get_context") then get_context p s
     else if decide (function_name = "clear_contexts") then clear_contexts p s
     else (not_supported function_name, s)).
Proof.
  intros Hp. unfold handle_mcp_request. rewrite Hp.
  repeat (case_decide as Hd;
    [subst; done | apply String.eqb_neq in Hd; rewrite Hd; clear Hd]).
  done.
Qed.

(** Without a dictionary of parameters every call is refused. *)
Lemma handle_no_parameters function_name body uuid8 s :
  (∀ p, load_parameters body ≠ inr (Some p)) →
  ∃ resp, is_error resp = true ∧
          handle_mcp_request function_name body uuid8 s = (resp, s).
Proof.
  intros Hno. unfold handle_mcp_request.
  destruct (load_parameters body) as [e|[p|]];
    [eexists; split; [|reflexivity]; by destruct e|by destruct (Hno p)|].
  repeat (case_match; [eexists; split; [|reflexivity]; done|]).
  eexists; split; [|reflexivity]; done.
Qed.

(** Case analysis on a call: it is refused for want of parameters, or one
    of the five operations runs, or the name is not a function of the
    server. *)
Lemma handle_inv function_name body uuid8 s :
  (∃ resp, is_error resp = true ∧
           handle_mcp_request function_name body uuid8 s = (resp, s)) ∨
  ∃ p, load_parameters body = inr (Some p) ∧
    ((function_name = "push_context" ∧
        handle_mcp_request function_name body uuid8 s = push_context p uuid8 s) ∨
     (function_name = "pop_context" ∧
        handle_mcp_request function_name body uuid8 s = pop_context p s) ∨
     (function_name = "list_contexts" ∧
        handle_mcp_request function_name body uuid8 s = list_contexts p s) ∨
     (function_name = "get_context" ∧
        handle_mcp_request function_name body uuid8 s = get_context p s) ∨
     (function_name = "clear_contexts" ∧
        handle_mcp_request function_name body uuid8 s = clear_contexts p s)).
Proof.
  destruct (load_parameters body) as [e|[p|]] eqn:Hp.
  - left. apply handle_no_parameters. by rewrite Hp.
  - rewrite (handle_cases _ _ _ _ p Hp).
    repeat (case_decide; [right; exists p; naive_solver|]).
    left. eexists; split; [|reflexivity]; done.
  - left. apply handle_no_parameters. by rewrite Hp.
Qed.

(** ** The store seen per user *)

(** A user's [entries] and [order]; a user the store has never seen has
    neither, which reads as empty. *)
Definition user_entries (s : store) (user_id : string) : gmap string json :=
  default ∅ (contexts s !! user_id).

Definition user_order (s : store) (user_id : string) : list string :=
  default [] (context_stacks s !! user_id).

(** Both dictionaries know the same users. *)
Definition stacks_agree (s : store) : Prop :=
  ∀ user_id, is_Some (contexts s !! user_id) ↔ is_Some (context_stacks s !! user_id).

(** The store after a push, a pop and a clear that go through. *)
Definition pushed (user_id context_id : string) (c : json) (s : store) : store :=
  Store (<[user_id := <[context_id := c]> (user_entries s user_id)]> (contexts s))
        (<[user_id := user_order s user_id ++ [context_id]]> (context_stacks s)).

Definition popped (user_id context_id : string) (order' : list string) (s : store) : store :=
  Store (<[user_id := delete context_id (user_entries s user_id)]> (contexts s))
        (<[user_id := order']> (context_stacks s)).

Definition cleared (user_id : string) (s : store) : store :=
  Store (<[user_id := ∅]> (contexts s)) (<[user_id := []]> (context_stacks s)).

Lemma user_entries_empty user_id : user_entries empty_store user_id = ∅.
Proof. unfold user_entries. simpl. by rewrite lookup_empty. Qed.

Lemma user_order_empty user_id : user_order empty_store user_id = [].
Proof. unfold user_order. simpl. by rewrite lookup_empty. Qed.

Lemma user_entries_pushed u x c s u' :
  user_entries (pushed u x c s) u' =
    if decide (u = u') then <[x := c]> (user_entries s u) else user_entries s u'.
Proof.
  unfold user_entries at 1. simpl. rewrite lookup_insert. by case_decide.
Qed.

Lemma user_order_pushed u x c s u' :
  user_order (pushed u x c s) u' =
    if decide (u = u') then user_order s u ++ [x] else user_order s u'.
Proof.
  unfold user_order at 1. simpl. rewrite lookup_insert. by case_decide.
Qed.

Lemma user_entries_popped u x l s u' :
  user_entries (popped u x l s) u' =
    if decide (u = u') then delete x (user_entries s u) else user_entries s u'.
Proof.
  unfold user_entries at 1. simpl. rewrite lookup_insert. by case_decide.
Qed.

Lemma user_order_popped u x l s u' :
  user_order (popped u x l s) u' = if decide (u = u') then l else user_order s u'.
Proof.
  unfold user_order at 1. simpl. rewrite lookup_insert. by case_decide.
Qed.

Lemma user_entries_cleared u s u' :
  user_entries (cleared u s) u' = if decide (u = u') then ∅ else user_entries s u'.
Proof.
  unfold user_entries at 1. simpl. rewrite lookup_insert. by case_decide.
Qed.

Lemma user_order_cleared u s u' :
  user_order (cleared u s) u' = if decide (u = u') then [] else user_order s u'.
Proof.
  unfold user_order at 1. simpl. rewrite lookup_insert. by case_decide.
Qed.

Lemma store_eta s : Store (contexts s) (context_stacks s) = s.
Proof. by destruct s. Qed.

Lemma stacks_agree_empty : stacks_agree empty_store.
Proof. intros u. simpl. by rewrite !lookup_empty. Qed.

Lemma stacks_agree_insert s u m l :
  stacks_agree s →
  stacks_agree (Store (<[u := m]> (contexts s)) (<[u := l]> (context_stacks s))).
Proof.
  intros H u'. simpl. rewrite !lookup_insert. case_decide; [|apply H].
  split; eauto.
Qed.

(** ** What each operation does on a store whose dictionaries agree *)

Lemma push_context_agree p uuid8 s u c :
  stacks_agree s →
  required_str (param_user_id p) = Some u →
  required_json (param_context p) = Some c →
  push_context p uuid8 s =
    (R_pushed (new_context_id uuid8), pushed u (new_context_id uuid8) c s).
Proof.
  intros Hag Hu Hc. unfold push_context, pushed, init_user, user_entries, user_order.
  rewrite Hu, Hc. destruct (contexts s !! u) as [entries|] eqn:Hm.
  - destruct (proj1 (Hag u)) as [order Ho]; [by rewrite Hm|].
    rewrite Hm. simpl. by rewrite Ho.
  - assert (context_stacks s !! u = None) as Ho.
    { apply eq_None_not_Some. rewrite <- (Hag u), Hm. by intros [? ?]. }
    simpl. rewrite !lookup_insert_eq. simpl.
    by rewrite !insert_insert_eq, Ho.
Qed.

Lemma pop_context_empty p s u :
  required_str (param_user_id p) = Some u →
  user_order s u = [] →
  pop_context p s = (no_contexts_to_pop, s).
Proof.
  intros Hu Ho. unfold pop_context, user_order in *. rewrite Hu.
  destruct (context_stacks s !! u) as [order|]; [|done].
  simpl in *. by subst.
Qed.

Lemma pop_context_agree p s u order' x :
  stacks_agree s →
  required_str (param_user_id p) = Some u →
  user_order s u = order' ++ [x] →
  pop_context p s = (R_popped x (dict_get (user_entries s u) x), popped u x order' s).
Proof.
  intros Hag Hu Ho. unfold pop_context, popped, user_entries, user_order in *. rewrite Hu.
  destruct (context_stacks s !! u) as [order|] eqn:Hst; simpl in *;
    [subst|by destruct order'].
  rewrite list_pop_snoc.
  destruct (proj2 (Hag u)) as [entries Hm]; [by rewrite Hst|].
  by rewrite Hm.
Qed.

Lemma mapM_total {A B : Type} (f : A → B) (l : list A) :
  mapM (λ x, Some (f x)) l = Some (map f l).
Proof. induction l as [|x l IH]; [done|]. simpl. by rewrite IH. Qed.

Lemma list_contexts_agree p s u :
  stacks_agree s →
  required_str (param_user_id p) = Some u →
  list_contexts p s =
    (R_contexts (map (λ x, (x, dict_get (user_entries s u) x)) (user_order s u)), s).
Proof.
  intros Hag Hu. unfold list_contexts, user_entries, user_order. rewrite Hu.
  destruct (context_stacks s !! u) as [order|] eqn:Hst; [|done].
  destruct (proj2 (Hag u)) as [entries Hm]; [by rewrite Hst|].
  rewrite Hm. simpl. by rewrite (mapM_total (λ x, (x, dict_get entries x))).
Qed.

Lemma get_context_found p s u x c :
  required_str (param_user_id p) = Some u →
  required_str (param_context_id p) = Some x →
  user_entries s u !! x = Some c →
  get_context p s = (R_found x c, s).
Proof.
  intros Hu Hx Hc. unfold get_context, user_entries, dict_get in *. rewrite Hu, Hx.
  destruct (contexts s !! u) as [entries|]; simpl in *; [|by rewrite lookup_empty in Hc].
  by rewrite Hc.
Qed.

Lemma get_context_missing p s u x :
  required_str (param_user_id p) = Some u →
  required_str (param_context_id p) = Some x →
  user_entries s u !! x = None →
  get_context p s = (not_found x u, s).
Proof.
  intros Hu Hx Hc. unfold get_context, user_entries in *. rewrite Hu, Hx.
  destruct (contexts s !! u) as [entries|]; simpl in *; [|done].
  by rewrite Hc.
Qed.

Lemma clear_contexts_known p s u :
  required_str (param_user_id p) = Some u →
  is_Some (contexts s !! u) →
  clear_contexts p s = (R_cleared, cleared u s).
Proof.
  intros Hu [entries Hm]. unfold clear_contexts. by rewrite Hu, Hm.
Qed.

Lemma clear_contexts_unknown p s u :
  required_str (param_user_id p) = Some u →
  contexts s !! u = None →
  clear_contexts p s = (R_cleared, s).
Proof.
  intros Hu Hm. unfold clear_contexts. by rewrite Hu, Hm.
Qed.

(** ** The transitions of the store *)

(** What a call can do to a store whose dictionaries agree: leave it as it
    is (every error envelope, [list_contexts], [get_context], a clear for
    an unknown user), push, pop, or clear. *)
Inductive call_result (r : request) (s : store) : response → store → Prop :=
| call_rejected resp :
    is_error resp = true →
    call_result r s resp s
| call_list p u :
    req_function r = "list_contexts" →
    load_parameters (req_body r) = inr (Some p) →
    required_str (param_user_id p) = Some u →
    call_result r s
      (R_contexts (map (λ x, (x, dict_get (user_entries s u) x)) (user_order s u))) s
| call_get p u x c :
    req_function r = "get_context" →
    load_parameters (req_body r) = inr (Some p) →
    required_str (param_user_id p) = Some u →
    required_str (param_context_id p) = Some x →
    user_entries s u !! x = Some c →
    call_result r s (R_found x c) s
| call_push p u c :
    req_function r = "push_context" →
    load_parameters (req_body r) = inr (Some p) →
    required_str (param_user_id p) = Some u →
    required_json (param_context p) = Some c →
    call_result r s (R_pushed (new_context_id (req_uuid8 r)))
      (pushed u (new_context_id (req_uuid8 r)) c s)
| call_pop p u order' x :
    req_function r = "pop_context" →
    load_parameters (req_body r) = inr (Some p) →
    required_str (param_user_id p) = Some u →
    user_order s u = order' ++ [x] →
    call_result r s (R_popped x (dict_get (user_entries s u) x)) (popped u x order' s)
| call_clear_known p u :
    req_function r = "clear_contexts" →
    load_parameters (req_body r) = inr (Some p) →
    required_str (param_user_id p) = Some u →
    is_Some (contexts s !! u) →
    call_result r s R_cleared (cleared u s)
| call_clear_unknown p u :
    req_function r = "clear_contexts" →
    load_parameters (req_body r) = inr (Some p) →
    required_str (param_user_id p) = Some u →
    contexts s !! u = None →
    call_result r s R_cleared s.

Lemma snoc_or_nil {A : Type} (l : list A) : l = [] ∨ ∃ l' x, l = l' ++ [x].
Proof.
  destruct (list_pop l) as [[l' x]|] eqn:E.
  - right. exists l', x. by apply list_pop_Some.
  - left. by apply list_pop_None.
Qed.

Lemma step_call_result r s :
  stacks_agree s → call_result r s (step r s).1 (step r s).2.
Proof.
  intros Hag. unfold step.
  destruct (handle_inv (req_function r) (req_body r) (req_uuid8 r) s)
    as [(resp & Herr & ->)|(p & Hp & [[Hf ->]|[[Hf ->]|[[Hf ->]|[[Hf ->]|[Hf ->]]]]])];
    try (by apply call_rejected).
  - (* push_context *)
    destruct (required_str (param_user_id p)) as [u|] eqn:Hu.
    + destruct (required_json (param_context p)) as [c|] eqn:Hc.
      * rewrite (push_context_agree p _ s u c Hag Hu Hc). by eapply call_push.
      * unfold push_context. rewrite Hu, Hc. by apply call_rejected.
    + unfold push_context. rewrite Hu. by apply call_rejected.
  - (* pop_context *)
    destruct (required_str (param_user_id p)) as [u|] eqn:Hu.
    + destruct (snoc_or_nil (user_order s u)) as [Ho|(order' & x & Ho)].
      * rewrite (pop_context_empty p s u Hu Ho). by apply call_rejected.
      * rewrite (pop_context_agree p s u order' x Hag Hu Ho). by eapply call_pop.
    + unfold pop_context. rewrite Hu. by apply call_rejected.
  - (* list_contexts *)
    destruct (required_str (param_user_id p)) as [u|] eqn:Hu.
    + rewrite (list_contexts_agree p s u Hag Hu). by eapply call_list.
    + unfold list_contexts. rewrite Hu. by apply call_rejected.
  - (* get_context *)
    destruct (required_str (param_user_id p)) as [u|] eqn:Hu.
    + destruct (required_str (param_context_id p)) as [x|] eqn:Hx.
      * destruct (user_entries s u !! x) as [c|] eqn:Hc.
        -- rewrite (get_context_found p s u x c Hu Hx Hc). by eapply call_get.
        -- rewrite (get_context_missing p s u x Hu Hx Hc). by apply call_rejected.
      * unfold get_context. rewrite Hu, Hx. by apply call_rejected.
    + unfold get_context. rewrite Hu. by apply call_rejected.
  - (* clear_contexts *)
    destruct (required_str (param_user_id p)) as [u|] eqn:Hu.
    + destruct (contexts s !! u) as [entries|] eqn:Hm.
      * rewrite (clear_contexts_known p s u Hu); [|by rewrite Hm].
        eapply call_clear_known; [done..|by rewrite Hm].
      * rewrite (clear_contexts_unknown p s u Hu Hm). by eapply call_clear_unknown.
    + unfold clear_contexts. rewrite Hu. by apply call_rejected.
Qed.

Lemma call_result_agree r s resp s' :
  stacks_agree s → call_result r s resp s' → stacks_agree s'.
Proof.
  intros Hag H. destruct H; try done; by apply stacks_agree_insert.
Qed.

Lemma step_agree r s : stacks_agree s → stacks_agree (step r s).2.
Proof.
  intros Hag. eapply call_result_agree; [done|]. by apply step_call_result.
Qed.

Lemma reachable_agree s : reachable s → stacks_agree s.
Proof.
  induction 1 as [|r s _ IH]; [apply stacks_agree_empty|by apply step_agree].
Qed.

(** ** The order and the entries in lockstep *)

(** For one user: [order] has no duplicates and lists the keys of [entries]. *)
Definition lockstep (s : store) (user_id : string) : Prop :=
  NoDup (user_order s user_id) ∧
  list_to_set (user_order s user_id) =@{gset string} dom (user_entries s user_id).

(** The invariant of the data model (spec, section 3). *)
Definition store_invariant (s : store) : Prop :=
  ∀ user_id,
    (is_Some (contexts s !! user_id) ↔ is_Some (context_stacks s !! user_id)) ∧
    ∀ entries order,
      contexts s !! user_id = Some entries →
      context_stacks s !! user_id = Some order →
      NoDup order ∧ list_to_set order =@{gset string} dom entries.

(** The token of a push makes an identifier the user does not hold. *)
Definition fresh_draw (r : request) (s : store) : Prop :=
  ∀ p u,
    req_function r = "push_context" →
    load_parameters (req_body r) = inr (Some p) →
    required_str (param_user_id p) = Some u →
    user_entries s u !! new_context_id (req_uuid8 r) = None.

(** The stores reached when every push draws such a token. *)
Inductive reachable_fresh : store → Prop :=
| reachable_fresh_empty : reachable_fresh empty_store
| reachable_fresh_step r s :
    reachable_fresh s → fresh_draw r s → reachable_fresh (step r s).2.

Lemma reachable_fresh_reachable s : reachable_fresh s → reachable s.
Proof. induction 1; by constructor. Qed.

Lemma lockstep_empty user_id : lockstep empty_store user_id.
Proof.
  unfold lockstep. rewrite user_order_empty, user_entries_empty.
  split; [constructor|set_solver].
Qed.

Lemma call_result_lockstep r s resp s' :
  fresh_draw r s → call_result r s resp s' →
  (∀ u, lockstep s u) → ∀ u, lockstep s' u.
Proof.
  intros Hfresh H Hinv u'.
  destruct H as [| | |p u c Hf Hp Hu Hc|p u order' x Hf Hp Hu Ho|p u Hf Hp Hu Hm|]; try done.
  - (* push *)
    specialize (Hfresh p u Hf Hp Hu). unfold lockstep.
    rewrite user_order_pushed, user_entries_pushed.
    case_decide as Hd; [subst u'|apply Hinv].
    destruct (Hinv u) as [Hnd Hdom]. split.
    + apply NoDup_app. split_and!; [done| |apply NoDup_singleton].
      intros y Hy ->%list_elem_of_singleton.
      apply not_elem_of_dom in Hfresh. apply Hfresh. rewrite <- Hdom.
      by apply elem_of_list_to_set.
    + rewrite list_to_set_app_L, dom_insert_L, Hdom. set_solver.
  - (* pop *)
    unfold lockstep. rewrite user_order_popped, user_entries_popped.
    case_decide as Hd; [subst u'|apply Hinv].
    destruct (Hinv u) as [Hnd Hdom]. rewrite Ho in Hnd, Hdom.
    apply NoDup_app in Hnd as (Hnd & Hnotin & _). split; [done|].
    rewrite dom_delete_L, <- Hdom, list_to_set_app_L.
    assert (x ∉ order') as Hx by (intros Hx; apply (Hnotin x Hx); set_solver).
    set_solver.
  - (* clear *)
    unfold lockstep. rewrite user_order_cleared, user_entries_cleared.
    case_decide as Hd; [subst u'|apply Hinv].
    split; [constructor|set_solver].
Qed.

Lemma reachable_fresh_lockstep s : reachable_fresh s → ∀ u, lockstep s u.
Proof.
  induction 1 as [|r s Hr IH Hfresh]; [apply lockstep_empty|].
  eapply call_result_lockstep; [done| |done].
  apply step_call_result, reachable_agree, reachable_fresh_reachable, Hr.
Qed.

Lemma store_invariant_intro s :
  stacks_agree s → (∀ u, lockstep s u) → store_invariant s.
Proof.
  intros Hag Hl u. split; [apply Hag|]. intros entries order Hm Ho.
  specialize (Hl u). unfold lockstep, user_order, user_entries in Hl.
  by rewrite Hm, Ho in Hl.
Qed.

Lemma store_invariant_lockstep s u : store_invariant s → lockstep s u.
Proof.
  intros Hinv. destruct (Hinv u) as [Hag Hl]. unfold lockstep, user_order, user_entries.
  destruct (contexts s !! u) as [entries|] eqn:Hm.
  - destruct (proj1 Hag) as [order Ho]; [done|]. rewrite Ho. by apply Hl.
  - assert (context_stacks s !! u = None) as ->.
    { apply eq_None_not_Some. rewrite <- Hag. by intros [? ?]. }
    simpl. split; [constructor|set_solver].
Qed.

Lemma store_invariant_agree s : store_invariant s → stacks_agree s.
Proof. intros Hinv u. apply Hinv. Qed.

Lemma reachable_run reqs s : reachable s → reachable (run reqs s).2.
Proof.
  revert s. induction reqs as [|r reqs IH]; intros s Hs; [done|].
  simpl. destruct (step r s) as [resp s1] eqn:E1.
  specialize (IH s1). destruct (run reqs s1) as [resps s2]. simpl in *.
  apply IH. replace s1 with (step r s).2 by (by rewrite E1). by constructor.
Qed.

(** ** C1: the invariant of the data model *)

(** Two pushes for one user whose tokens coincide. *)
Definition collision_trace : list request :=
  [push_request "u1" (JObj [("q", JStr "a")]) "0a1b2c3d";
   push_request "u1" (JObj [("q", JStr "b")]) "0a1b2c3d"].

(** C1, as stated, fails: [uuid.uuid4] is free to yield the same first
    eight characters twice, and the store reached by [collision_trace]
    then holds one identifier twice in the user's order. *)
Lemma C1_collision_breaks_invariant :
  reachable (run collision_trace empty_store).2 ∧
  context_stacks (run collision_trace empty_store).2 !! "u1"
    = Some ["ctx_0a1b2c3d"; "ctx_0a1b2c3d"] ∧
  ¬ store_invariant (run collision_trace empty_store).2.
Proof.
  split_and!.
  - apply reachable_run, reachable_empty.
  - vm_compute. reflexivity.
  - intros Hinv. destruct (store_invariant_lockstep _ "u1" Hinv) as [Hnd _].
    assert (user_order (run collision_trace empty_store).2 "u1"
            = ["ctx_0a1b2c3d"; "ctx_0a1b2c3d"]) as Ho by (vm_compute; reflexivity).
    rewrite Ho in Hnd. apply NoDup_cons in Hnd as [Hnotin _].
    apply Hnotin. by left.
Qed.

(** C1 (amended): in every reachable store a user is known to [contexts]
    exactly when it is known to [context_stacks]; and in every store
    reached by calls whose pushes each draw an identifier the user does not
    hold, every user's order is free of duplicates and its elements are
    exactly the keys of the user's entries. *)
Theorem C1_store_invariant (s : store) :
  (reachable s → stacks_agree s) ∧ (reachable_fresh s → store_invariant s).
Proof.
  split; [apply reachable_agree|]. intros Hs.
  apply store_invariant_intro.
  - by apply reachable_agree, reachable_fresh_reachable.
  - by apply reachable_fresh_lockstep.
Qed.

Lemma C1_store_invariant_witness :
  reachable_fresh (step (push_request "u1" (JObj [("q", JStr "a")]) "0a1b2c3d") empty_store).2 ∧
  store_invariant (step (push_request "u1" (JObj [("q", JStr "a")]) "0a1b2c3d") empty_store).2.
Proof.
  assert (reachable_fresh
            (step (push_request "u1" (JObj [("q", JStr "a")]) "0a1b2c3d") empty_store).2) as H.
  { apply reachable_fresh_step; [apply reachable_fresh_empty|].
    intros p u _ _ _. rewrite user_entries_empty. apply lookup_empty. }
  split; [exact H|].
  exact (proj2 (C1_store_invariant _) H).
Defined.

(** ** C2: push, then pop *)

(** C2: whatever the store, if a push for a user succeeds and returns
    identifier [X], the pop for that user that follows succeeds and returns
    [X] with the very context that was pushed. *)
Theorem C2_push_then_pop (s s1 : store) (p q : parameters) (uuid8 uuid8' X : string) :
  handle_mcp_request "push_context" (Body_json p) uuid8 s = (R_pushed X, s1) →
  param_user_id q = param_user_id p →
  ∃ c s2,
    param_context p = Some c ∧
    handle_mcp_request "pop_context" (Body_json q) uuid8' s1 = (R_popped X c, s2).
Proof.
  intros Hpush Hq.
  rewrite (handle_cases _ (Body_json p) _ _ p eq_refl) in Hpush.
  rewrite (handle_cases _ (Body_json q) _ _ q eq_refl). simpl in *.
  unfold push_context in Hpush. unfold pop_context. rewrite Hq.
  destruct (required_str (param_user_id p)) as [u|]; [|done].
  destruct (required_json (param_context p)) as [c|] eqn:Hc; [|done].
  apply required_json_Some in Hc as [Hc _].
  destruct (contexts (init_user u s) !! u) as [entries|]; [|done].
  simpl in Hpush.
  destruct (context_stacks (init_user u s) !! u) as [order|]; [|done].
  injection Hpush as <- <-. simpl.
  rewrite !lookup_insert_eq. simpl. rewrite list_pop_snoc.
  exists c. eexists. split; [done|].
  unfold dict_get. by rewrite lookup_insert_eq.
Qed.

Lemma C2_push_then_pop_witness :
  ∃ c s2,
    Some (JObj [("q", JStr "a")]) = Some c ∧
    handle_mcp_request "pop_context" (Body_json (Parameters (Some "u1") None None)) ""
      (pushed "u1" "ctx_0a1b2c3d" (JObj [("q", JStr "a")]) empty_store)
    = (R_popped "ctx_0a1b2c3d" c, s2).
Proof.
  apply (C2_push_then_pop empty_store _
           (Parameters (Some "u1") (Some (JObj [("q", JStr "a")])) None)
           (Parameters (Some "u1") None None) "0a1b2c3d" "" "ctx_0a1b2c3d").
  - rewrite (handle_cases _ (Body_json _) _ _ _ eq_refl). simpl.
    apply (push_context_agree _ _ _ "u1" (JObj [("q", JStr "a")]));
      [apply stacks_agree_empty|reflexivity|reflexivity].
  - reflexivity.
Defined.

(** ** C3: listing *)

(** The pairs [list_contexts] builds for a user, in stack order. *)
Definition contexts_listing (s : store) (user_id : string) : list (string * json) :=
  map (λ x, (x, dict_get (user_entries s user_id) x)) (user_order s user_id).

(** Pushes for one user, each with its context and its token. *)
Definition pushes (user_id : string) (cts : list (json * string)) : list request :=
  map (λ ct, push_request user_id ct.1 ct.2) cts.

(** The pairs those pushes put on the stack. *)
Definition pushed_pairs (cts : list (json * string)) : list (string * json) :=
  map (λ ct, (new_context_id ct.2, ct.1)) cts.

Lemma step_push_request s u c uuid8 :
  stacks_agree s → u ≠ "" → truthy c = true →
  step (push_request u c uuid8) s =
    (R_pushed (new_context_id uuid8), pushed u (new_context_id uuid8) c s).
Proof.
  intros Hag Hu Hc. unfold step, push_request. simpl.
  rewrite (handle_cases _ (Body_json _) _ _ _ eq_refl). simpl.
  apply push_context_agree; [done| |].
  - by apply required_str_Some.
  - by apply required_json_Some.
Qed.

Lemma handle_list_contexts s p u uuid8 :
  stacks_agree s → param_user_id p = Some u → u ≠ "" →
  handle_mcp_request "list_contexts" (Body_json p) uuid8 s
    = (R_contexts (contexts_listing s u), s).
Proof.
  intros Hag Hp Hu. rewrite (handle_cases _ (Body_json _) _ _ _ eq_refl). simpl.
  apply list_contexts_agree; [done|]. rewrite Hp. by apply required_str_Some.
Qed.

Lemma contexts_listing_pushed s u x c :
  lockstep s u → user_entries s u !! x = None →
  contexts_listing (pushed u x c s) u = contexts_listing s u ++ [(x, c)].
Proof.
  intros [_ Hdom] Hx. unfold contexts_listing.
  rewrite user_order_pushed, user_entries_pushed, !decide_True by done.
  rewrite map_app. simpl. unfold dict_get at 2. rewrite lookup_insert_eq. simpl.
  f_equal. apply map_ext_in. intros y Hy. f_equal. unfold dict_get.
  rewrite lookup_insert_ne; [done|]. intros ->.
  apply not_elem_of_dom in Hx. apply Hx. rewrite <- Hdom.
  by apply elem_of_list_to_set, list_elem_of_In.
Qed.

Lemma fresh_draw_push_request s u c uuid8 :
  user_entries s u !! new_context_id uuid8 = None →
  fresh_draw (push_request u c uuid8) s.
Proof.
  intros Hx p u' _ [= <-] Hu.
  apply required_str_Some in Hu as [[= <-] _]. done.
Qed.

Lemma run_pushes_listing u cts s :
  reachable_fresh s → u ≠ "" →
  Forall (λ ct, truthy ct.1 = true) cts →
  NoDup (map snd cts) →
  (∀ ct, ct ∈ cts → user_entries s u !! new_context_id ct.2 = None) →
  reachable_fresh (run (pushes u cts) s).2 ∧
  contexts_listing (run (pushes u cts) s).2 u = contexts_listing s u ++ pushed_pairs cts.
Proof.
  intros Hs Hu. revert s Hs.
  induction cts as [|[c t] cts IH]; intros s Hs Hc Hnd Hfresh.
  { simpl. by rewrite app_nil_r. }
  apply Forall_cons in Hc as [Hc Hcs]. simpl in Hc, Hnd.
  apply NoDup_cons in Hnd as [Ht Hnd].
  assert (user_entries s u !! new_context_id t = None) as Hx
    by (apply (Hfresh (c, t)); by left).
  assert (stacks_agree s) as Hag by by apply reachable_agree, reachable_fresh_reachable.
  pose proof (reachable_fresh_step (push_request u c t) s Hs
                (fresh_draw_push_request s u c t Hx)) as Hs1.
  simpl. rewrite (step_push_request s u c t Hag Hu Hc) in Hs1 |- *. simpl in Hs1.
  specialize (IH (pushed u (new_context_id t) c s) Hs1 Hcs Hnd).
  destruct (run (pushes u cts) (pushed u (new_context_id t) c s)) as [resps s2].
  simpl in *. destruct IH as [Hs2 ->].
  - intros [c' t'] Hin. rewrite user_entries_pushed, decide_True by done. simpl.
    rewrite lookup_insert_ne; [by apply (Hfresh (c', t')); right|].
    intros Heq%new_context_id_inj. subst t'. apply Ht.
    apply list_elem_of_fmap. by exists (c', t).
  - split; [done|].
    rewrite contexts_listing_pushed; [|by apply reachable_fresh_lockstep|done].
    by rewrite <- app_assoc.
Qed.



(** The pushes of the scenario of the spec (section 8). *)
Definition scenario_pushes : list (json * string) :=
  [(JObj [("q", JStr "a")], "0a1b2c3d"); (JObj [("q", JStr "b")], "4e5f6a7b")].


(** ** C4: what a push accepts *)

(** The JSON values Python takes for false. *)
Lemma truthy_false_iff (c : json) :
  truthy c = false ↔
    c = JNull ∨ c = JBool false ∨ c = JInt 0 ∨ (∃ sign, c = JFloat (S754_zero sign)) ∨
    c = JStr "" ∨ c = JArr [] ∨ c = JObj [].
Proof.
  split.
  - destruct c as [|[]|z|f|str|items|fields]; simpl; try done; auto.
    + intros Hz%negb_false_iff%Z.eqb_eq. subst. auto.
    + destruct f; try done. intros _. do 3 right. left. by eexists.
    + intros Hs%negb_false_iff%String.eqb_eq. subst. auto 10.
    + destruct items; [auto 10|done].
    + destruct fields; [auto 10|done].
  - intros [->|[->|[->|[[sign ->]|[->|[->| ->]]]]]]; done.
Qed.

(** C4, as stated, fails: for a valid user the empty object, the empty
    array, the empty string, zero and false are each refused with the
    answer given for a missing context, and nothing is stored. *)
Lemma C4_falsy_context_refused :
  handle_mcp_request "push_context"
    (Body_json (Parameters (Some "u1") (Some (JObj [])) None)) "0a1b2c3d" empty_store
    = (context_required, empty_store) ∧
  handle_mcp_request "push_context"
    (Body_json (Parameters (Some "u1") (Some (JArr [])) None)) "0a1b2c3d" empty_store
    = (context_required, empty_store) ∧
  handle_mcp_request "push_context"
    (Body_json (Parameters (Some "u1") (Some (JStr "")) None)) "0a1b2c3d" empty_store
    = (context_required, empty_store) ∧
  handle_mcp_request "push_context"
    (Body_json (Parameters (Some "u1") (Some (JInt 0)) None)) "0a1b2c3d" empty_store
    = (context_required, empty_store) ∧
  handle_mcp_request "push_context"
    (Body_json (Parameters (Some "u1") (Some (JBool false)) None)) "0a1b2c3d" empty_store
    = (context_required, empty_store).
Proof. split_and!; reflexivity. Qed.

(** C4 (amended): a push with a valid user_id is refused, with the answer
    "context parameter is required" and the store untouched, exactly when
    the context is absent, null, or a value Python takes for false (false,
    zero, the empty string, array or object); for every other value the
    push, in a reachable store, stores that value unmodified under the
    identifier made from the token, appends the identifier to the user's
    order, touches no other user, and returns the identifier. *)
Theorem C4_push_context (s : store) (p : parameters) (u uuid8 : string) :
  param_user_id p = Some u → u ≠ "" →
  ((param_context p = None ∨ ∃ c, param_context p = Some c ∧ truthy c = false) →
     handle_mcp_request "push_context" (Body_json p) uuid8 s = (context_required, s)) ∧
  (reachable s →
     ∀ c, param_context p = Some c → truthy c = true →
       let x := new_context_id uuid8 in
       let s' := (handle_mcp_request "push_context" (Body_json p) uuid8 s).2 in
       (handle_mcp_request "push_context" (Body_json p) uuid8 s).1 = R_pushed x ∧
       user_entries s' u !! x = Some c ∧
       user_order s' u = user_order s u ++ [x] ∧
       (∀ y, y ≠ x → user_entries s' u !! y = user_entries s u !! y) ∧
       (∀ u', u' ≠ u →
          user_entries s' u' = user_entries s u' ∧ user_order s' u' = user_order s u')) ∧
  (reachable s →
     (is_error (handle_mcp_request "push_context" (Body_json p) uuid8 s).1 = true ↔
      (param_context p = None ∨ ∃ c, param_context p = Some c ∧ truthy c = false))).
Proof.
  intros Hp Hu.
  assert (required_str (param_user_id p) = Some u) as Hru
    by (rewrite Hp; by apply required_str_Some).
  assert (∀ c, param_context p = Some c → truthy c = true → reachable s →
            handle_mcp_request "push_context" (Body_json p) uuid8 s =
              (R_pushed (new_context_id uuid8), pushed u (new_context_id uuid8) c s)) as Hok.
  { intros c Hc Ht Hs. rewrite (handle_cases _ (Body_json _) _ _ _ eq_refl). simpl.
    apply push_context_agree; [by apply reachable_agree|done|].
    by apply required_json_Some. }
  assert ((param_context p = None ∨ ∃ c, param_context p = Some c ∧ truthy c = false) →
     handle_mcp_request "push_context" (Body_json p) uuid8 s = (context_required, s)) as Hno.
  { intros Hc%required_json_None.
    rewrite (handle_cases _ (Body_json _) _ _ _ eq_refl). simpl.
    unfold push_context. by rewrite Hru, Hc. }
  split_and!; [done| |].
  - intros Hs c Hc Ht. simpl. rewrite (Hok c Hc Ht Hs). simpl.
    rewrite user_entries_pushed, user_order_pushed, !decide_True by done.
    split_and!; [done|by rewrite lookup_insert_eq|done| |].
    + intros y Hy. by rewrite lookup_insert_ne.
    + intros u' Hu'. by rewrite user_entries_pushed, user_order_pushed, !decide_False.
  - intros Hs. split; [|by intros ->%Hno].
    destruct (param_context p) as [c|] eqn:Hc; [|by left].
    destruct (truthy c) eqn:Ht; [|right; by exists c].
    by rewrite (Hok c eq_refl Ht Hs).
Qed.

Lemma C4_push_context_witness :
  handle_mcp_request "push_context"
    (Body_json (Parameters (Some "u1") None None)) "0a1b2c3d" empty_store
    = (context_required, empty_store) ∧
  (handle_mcp_request "push_context"
     (Body_json (Parameters (Some "u1") (Some (JObj [("q", JStr "a")])) None))
     "0a1b2c3d" empty_store).1 = R_pushed "ctx_0a1b2c3d".
Proof.
  split.
  - apply (proj1 (C4_push_context empty_store (Parameters (Some "u1") None None) "u1"
                    "0a1b2c3d" eq_refl ltac:(discriminate))).
    by left.
  - apply (proj1 (proj2 (C4_push_context empty_store
                    (Parameters (Some "u1") (Some (JObj [("q", JStr "a")])) None) "u1"
                    "0a1b2c3d" eq_refl ltac:(discriminate)))
             reachable_empty (JObj [("q", JStr "a")]) eq_refl eq_refl).
Defined.

(** ** C5: pop and get *)

Lemma reachable_fresh_invariant s : reachable_fresh s → store_invariant s.
Proof.
  intros Hs. apply store_invariant_intro.
  - by apply reachable_agree, reachable_fresh_reachable.
  - by apply reachable_fresh_lockstep.
Qed.

Lemma lockstep_order_nil s u : lockstep s u → (user_order s u = [] ↔ user_entries s u = ∅).
Proof.
  intros [_ Hdom]. split; intros H; rewrite H in Hdom.
  - apply dom_empty_iff_L. by rewrite <- Hdom.
  - rewrite dom_empty_L in Hdom. destruct (user_order s u) as [|x l]; [done|].
    set_solver.
Qed.

Lemma user_entries_empty_iff s u :
  user_entries s u = ∅ ↔ contexts s !! u = None ∨ contexts s !! u = Some ∅.
Proof.
  unfold user_entries. destruct (contexts s !! u) as [entries|]; simpl.
  - split; [intros ->; by right|by intros [|[= ->]]].
  - split; [by left|done].
Qed.

Lemma user_entries_lookup_None s u x :
  user_entries s u !! x = None ↔
    contexts s !! u = None ∨ ∃ entries, contexts s !! u = Some entries ∧ entries !! x = None.
Proof.
  unfold user_entries. destruct (contexts s !! u) as [entries|]; simpl.
  - split; [intros H; right; by exists entries|by intros [|(? & [= <-] & ?)]].
  - split; [by left|intros _; apply lookup_empty].
Qed.

Lemma user_order_nil_iff s u :
  user_order s u = [] ↔ context_stacks s !! u = None ∨ context_stacks s !! u = Some [].
Proof.
  unfold user_order. destruct (context_stacks s !! u) as [order|]; simpl.
  - split; [intros ->; by right|by intros [|[= ->]]].
  - split; [by left|done].
Qed.

(** The two colliding pushes, then a pop. *)
Definition collision_then_pop : list request :=
  collision_trace ++ [user_request "pop_context" "u1"].

(** The store they leave: the user's entries are empty, the order still
    holds the identifier once. *)
Definition collision_popped_store : store := (run collision_then_pop empty_store).2.

(** C5, as stated, fails: in the reachable [collision_popped_store] the
    user has no entries, yet a pop is not refused: it answers with the
    identifier left in the order and with null for its value. *)
Lemma C5_pop_succeeds_without_entries :
  reachable collision_popped_store ∧
  contexts collision_popped_store !! "u1" = Some ∅ ∧
  context_stacks collision_popped_store !! "u1" = Some ["ctx_0a1b2c3d"] ∧
  (handle_mcp_request "pop_context" (Body_json (Parameters (Some "u1") None None)) ""
     collision_popped_store).1 = R_popped "ctx_0a1b2c3d" JNull.
Proof.
  split_and!.
  - apply reachable_run, reachable_empty.
  - vm_compute. reflexivity.
  - vm_compute. reflexivity.
  - vm_compute. reflexivity.
Qed.

(** C5 (amended): in every reachable store, and for a valid user_id, a pop
    is refused with "No contexts to pop" exactly when the user's order is
    absent or empty, be it a user never seen or one whose stack was
    emptied, and otherwise removes the last identifier of the order from
    the order and from the entries and returns it with the value held
    under it, null when the entries hold none; where the invariant of the
    data model holds, an empty order is the same as an empty set of entries
    and the value returned is the one stored.  A get with a valid
    context_id is refused with the not-found answer exactly when the user
    is unknown or holds no entry under the identifier, and otherwise
    returns the stored value; neither answer of get changes the store. *)
Theorem C5_pop_and_get (s : store) (p : parameters) (u uuid8 : string) :
  reachable s →
  param_user_id p = Some u → u ≠ "" →
  ((handle_mcp_request "pop_context" (Body_json p) uuid8 s).1 = no_contexts_to_pop ↔
     (context_stacks s !! u = None ∨ context_stacks s !! u = Some [])) ∧
  ((context_stacks s !! u = None ∨ context_stacks s !! u = Some []) →
     handle_mcp_request "pop_context" (Body_json p) uuid8 s = (no_contexts_to_pop, s)) ∧
  (∀ order' x,
     user_order s u = order' ++ [x] →
     handle_mcp_request "pop_context" (Body_json p) uuid8 s
       = (R_popped x (dict_get (user_entries s u) x), popped u x order' s) ∧
     user_order (popped u x order' s) u = order' ∧
     user_entries (popped u x order' s) u = delete x (user_entries s u)) ∧
  (store_invariant s →
     ((context_stacks s !! u = None ∨ context_stacks s !! u = Some []) ↔
      (contexts s !! u = None ∨ contexts s !! u = Some ∅)) ∧
     ∀ order' x, user_order s u = order' ++ [x] →
       ∃ c, user_entries s u !! x = Some c ∧ dict_get (user_entries s u) x = c) ∧
  (∀ x, param_context_id p = Some x → x ≠ "" →
     ((handle_mcp_request "get_context" (Body_json p) uuid8 s).1 = not_found x u ↔
        (contexts s !! u = None ∨
         ∃ entries, contexts s !! u = Some entries ∧ entries !! x = None)) ∧
     ((contexts s !! u = None ∨
       ∃ entries, contexts s !! u = Some entries ∧ entries !! x = None) →
        handle_mcp_request "get_context" (Body_json p) uuid8 s = (not_found x u, s)) ∧
     (∀ c, user_entries s u !! x = Some c →
        handle_mcp_request "get_context" (Body_json p) uuid8 s = (R_found x c, s))).
Proof.
  intros Hs Hp Hu.
  pose proof (reachable_agree s Hs) as Hag.
  assert (required_str (param_user_id p) = Some u) as Hru
    by (rewrite Hp; by apply required_str_Some).
  assert (∀ order' x, user_order s u = order' ++ [x] →
     handle_mcp_request "pop_context" (Body_json p) uuid8 s
       = (R_popped x (dict_get (user_entries s u) x), popped u x order' s)) as Hpop.
  { intros order' x Ho. rewrite (handle_cases _ (Body_json _) _ _ _ eq_refl). simpl.
    by apply pop_context_agree. }
  assert ((context_stacks s !! u = None ∨ context_stacks s !! u = Some []) →
     handle_mcp_request "pop_context" (Body_json p) uuid8 s = (no_contexts_to_pop, s))
    as Hempty.
  { intros He%user_order_nil_iff.
    rewrite (handle_cases _ (Body_json _) _ _ _ eq_refl). simpl.
    by apply (pop_context_empty p s u). }
  split_and!; [|done|..].
  - split; [|by intros ->%Hempty].
    destruct (snoc_or_nil (user_order s u)) as [Ho|(order' & x & Ho)].
    + intros _. by apply user_order_nil_iff.
    + by rewrite (Hpop order' x Ho).
  - intros order' x Ho. split_and!; [by apply Hpop| |].
    + by rewrite user_order_popped, decide_True.
    + by rewrite user_entries_popped, decide_True.
  - intros Hinv. pose proof (store_invariant_lockstep s u Hinv) as Hl. split.
    + by rewrite <- user_order_nil_iff, <- user_entries_empty_iff, lockstep_order_nil.
    + intros order' x Ho.
      assert (is_Some (user_entries s u !! x)) as [c Hc].
      { apply elem_of_dom. destruct Hl as [_ <-]. rewrite Ho. set_solver. }
      exists c. split; [done|]. unfold dict_get. by rewrite Hc.
  - intros x Hx Hxne.
    assert (required_str (param_context_id p) = Some x) as Hrx
      by (rewrite Hx; by apply required_str_Some).
    assert (∀ c, user_entries s u !! x = Some c →
        handle_mcp_request "get_context" (Body_json p) uuid8 s = (R_found x c, s)) as Hget.
    { intros c Hc. rewrite (handle_cases _ (Body_json _) _ _ _ eq_refl). simpl.
      by apply (get_context_found p s u x c). }
    assert ((contexts s !! u = None ∨
       ∃ entries, contexts s !! u = Some entries ∧ entries !! x = None) →
        handle_mcp_request "get_context" (Body_json p) uuid8 s = (not_found x u, s)) as Hmiss.
    { intros Hc%user_entries_lookup_None.
      rewrite (handle_cases _ (Body_json _) _ _ _ eq_refl). simpl.
      by apply (get_context_missing p s u x). }
    split_and!; [|done..].
    split; [|by intros ->%Hmiss].
    destruct (user_entries s u !! x) as [c|] eqn:Hc.
    + by rewrite (Hget c eq_refl).
    + intros _. by apply user_entries_lookup_None.
Qed.

(** The store after the first push of the scenario of the spec. *)
Definition one_push_store : store :=
  (step (push_request "u1" (JObj [("q", JStr "a")]) "0a1b2c3d") empty_store).2.

Lemma one_push_store_fresh : reachable_fresh one_push_store.
Proof.
  apply reachable_fresh_step; [apply reachable_fresh_empty|].
  apply fresh_draw_push_request. rewrite user_entries_empty. apply lookup_empty.
Qed.

Lemma C5_pop_and_get_witness :
  handle_mcp_request "pop_context" (Body_json (Parameters (Some "u1") None None)) ""
    one_push_store
    = (R_popped "ctx_0a1b2c3d" (dict_get (user_entries one_push_store "u1") "ctx_0a1b2c3d"),
       popped "u1" "ctx_0a1b2c3d" [] one_push_store) ∧
  (∃ c, user_entries one_push_store "u1" !! "ctx_0a1b2c3d" = Some c ∧
        dict_get (user_entries one_push_store "u1") "ctx_0a1b2c3d" = c) ∧
  handle_mcp_request "get_context"
    (Body_json (Parameters (Some "u1") None (Some "ctx_4e5f6a7b"))) "" one_push_store
    = (not_found "ctx_4e5f6a7b" "u1", one_push_store).
Proof.
  pose proof (reachable_fresh_reachable _ one_push_store_fresh) as Hs.
  assert (user_order one_push_store "u1" = [] ++ ["ctx_0a1b2c3d"]) as Ho
    by (vm_compute; reflexivity).
  split_and!.
  - apply (proj1 (proj2 (proj2
             (C5_pop_and_get one_push_store (Parameters (Some "u1") None None) "u1" ""
                Hs eq_refl ltac:(discriminate)))) [] "ctx_0a1b2c3d" Ho).
  - apply (proj2 (proj1 (proj2 (proj2 (proj2
             (C5_pop_and_get one_push_store (Parameters (Some "u1") None None) "u1" ""
                Hs eq_refl ltac:(discriminate)))))
             (reachable_fresh_invariant _ one_push_store_fresh)) [] "ctx_0a1b2c3d" Ho).
  - apply (proj2 (proj2 (proj2 (proj2
             (C5_pop_and_get one_push_store
                (Parameters (Some "u1") None (Some "ctx_4e5f6a7b")) "u1" ""
                Hs eq_refl ltac:(discriminate)))))
             "ctx_4e5f6a7b" eq_refl ltac:(discriminate)).
    right. eexists. split; vm_compute; reflexivity.
Defined.

(** ** C6: clear *)

Lemma cleared_cleared u s : cleared u (cleared u s) = cleared u s.
Proof. unfold cleared. simpl. by rewrite !insert_insert_eq. Qed.

Lemma cleared_id u s :
  contexts s !! u = Some ∅ → context_stacks s !! u = Some [] → cleared u s = s.
Proof.
  intros Hm Ho. unfold cleared. rewrite (insert_id _ _ _ Hm), (insert_id _ _ _ Ho).
  apply store_eta.
Qed.

Lemma cleared_fixed u s :
  cleared u s = s → contexts s !! u = Some ∅ ∧ context_stacks s !! u = Some [].
Proof.
  intros H. split.
  - rewrite <- H at 1. simpl. apply lookup_insert_eq.
  - rewrite <- H at 1. simpl. apply lookup_insert_eq.
Qed.

(** C6, as stated, fails: in the reachable [collision_popped_store] the
    user has no entries, and a clear reports success but is no no-op: it
    resets the order, which still held an identifier. *)
Lemma C6_clear_changes_store_without_entries :
  reachable collision_popped_store ∧
  contexts collision_popped_store !! "u1" = Some ∅ ∧
  (handle_mcp_request "clear_contexts" (Body_json (Parameters (Some "u1") None None)) ""
     collision_popped_store).1 = R_cleared ∧
  (handle_mcp_request "clear_contexts" (Body_json (Parameters (Some "u1") None None)) ""
     collision_popped_store).2 ≠ collision_popped_store.
Proof.
  split_and!.
  - apply reachable_run, reachable_empty.
  - vm_compute. reflexivity.
  - vm_compute. reflexivity.
  - intros H. apply (f_equal (λ s, context_stacks s !! "u1")) in H.
    vm_compute in H. discriminate.
Qed.

(** C6 (amended): for a valid user_id a clear reports success in every
    store; it leaves the store as it is exactly when the user was never
    seen or has neither entries nor identifiers in the order, which, where
    the invariant of the data model holds, is whenever the user has no
    entries; clearing twice gives the store and the answer of clearing
    once; and in every reachable store a list for the user right after the
    clear gives the empty sequence. *)
Theorem C6_clear_contexts (s : store) (p q : parameters) (u uuid8 uuid8' : string) :
  param_user_id p = Some u → u ≠ "" →
  let s1 := (handle_mcp_request "clear_contexts" (Body_json p) uuid8 s).2 in
  (handle_mcp_request "clear_contexts" (Body_json p) uuid8 s).1 = R_cleared ∧
  (contexts s !! u = None → s1 = s) ∧
  (s1 = s ↔
     contexts s !! u = None ∨
     (contexts s !! u = Some ∅ ∧ context_stacks s !! u = Some [])) ∧
  (store_invariant s → user_entries s u = ∅ → s1 = s) ∧
  handle_mcp_request "clear_contexts" (Body_json p) uuid8' s1 = (R_cleared, s1) ∧
  (reachable s → param_user_id q = Some u →
     handle_mcp_request "list_contexts" (Body_json q) uuid8' s1 = (R_contexts [], s1)).
Proof.
  intros Hp Hu.
  assert (required_str (param_user_id p) = Some u) as Hru
    by (rewrite Hp; by apply required_str_Some).
  assert (∀ t s0, handle_mcp_request "clear_contexts" (Body_json p) t s0
                  = clear_contexts p s0) as Hclear
    by (intros t s0; by rewrite (handle_cases _ (Body_json _) _ _ _ eq_refl)).
  rewrite !Hclear. simpl.
  destruct (contexts s !! u) as [entries|] eqn:Hm.
  - rewrite (clear_contexts_known p s u Hru) by (by rewrite Hm). simpl.
    split_and!; [done..| | | |].
    + split.
      * intros H. right. apply cleared_fixed in H as [H1 H2]. split; [|done].
        by rewrite <- Hm.
      * intros [|[[= ->] Ho]]; [done|]. by apply cleared_id.
    + intros Hinv He. unfold user_entries in He. rewrite Hm in He. simpl in He. subst.
      apply cleared_id; [done|].
      pose proof (store_invariant_lockstep s u Hinv) as Hl.
      assert (user_order s u = []) as Ho.
      { apply (lockstep_order_nil s u Hl). unfold user_entries. by rewrite Hm. }
      destruct (proj1 (store_invariant_agree s Hinv u)) as [order Hst]; [by rewrite Hm|].
      unfold user_order in Ho. rewrite Hst in Ho. simpl in Ho. by subst.
    + rewrite Hclear, (clear_contexts_known p (cleared u s) u Hru).
      * by rewrite cleared_cleared.
      * simpl. by rewrite lookup_insert_eq.
    + intros Hs Hq. rewrite (handle_list_contexts (cleared u s) q u uuid8'); [|  |done..].
      * unfold contexts_listing. by rewrite user_order_cleared, decide_True.
      * by apply stacks_agree_insert, reachable_agree.
  - rewrite (clear_contexts_unknown p s u Hru Hm). simpl.
    split_and!; [done| done| | done | |].
    + split; [by left|done].
    + by rewrite Hclear, (clear_contexts_unknown p s u Hru Hm).
    + intros Hs Hq. pose proof (reachable_agree s Hs) as Hag.
      rewrite (handle_list_contexts s q u uuid8' Hag Hq Hu).
      unfold contexts_listing, user_order.
      assert (context_stacks s !! u = None) as ->; [|done].
      apply eq_None_not_Some. rewrite <- (Hag u), Hm. by intros [? ?].
Qed.

Lemma C6_clear_contexts_witness :
  let s1 := (handle_mcp_request "clear_contexts"
               (Body_json (Parameters (Some "u1") None None)) "" one_push_store).2 in
  (handle_mcp_request "clear_contexts"
     (Body_json (Parameters (Some "u1") None None)) "" one_push_store).1 = R_cleared ∧
  handle_mcp_request "clear_contexts" (Body_json (Parameters (Some "u1") None None)) "" s1
    = (R_cleared, s1) ∧
  handle_mcp_request "list_contexts" (Body_json (Parameters (Some "u1") None None)) "" s1
    = (R_contexts [], s1) ∧
  (handle_mcp_request "clear_contexts"
     (Body_json (Parameters (Some "u2") None None)) "" one_push_store).2 = one_push_store.
Proof.
  destruct (C6_clear_contexts one_push_store (Parameters (Some "u1") None None)
              (Parameters (Some "u1") None None) "u1" "" ""
              eq_refl ltac:(discriminate)) as (H1 & _ & _ & _ & H3 & H4).
  split_and!; [exact H1|exact H3| |].
  - apply H4; [|reflexivity].
    apply reachable_fresh_reachable, one_push_store_fresh.
  - apply (proj1 (proj2 (proj2 (proj2
             (C6_clear_contexts one_push_store (Parameters (Some "u2") None None)
                (Parameters (Some "u2") None None) "u2" "" ""
                eq_refl ltac:(discriminate)))))).
    + apply reachable_fresh_invariant, one_push_store_fresh.
    + vm_compute. reflexivity.
Defined.

(** ** C7: the identifiers pushes return *)

(** The identifiers handed out, in order, by the pushes among [resps]. *)
Fixpoint issued (resps : list response) : list string :=
  match resps with
  | [] => []
  | R_pushed x :: resps' => x :: issued resps'
  | _ :: resps' => issued resps'
  end.

(** The tokens [uuid.uuid4] yielded: those of the calls that got as far as
    minting an identifier. *)
Fixpoint drawn (reqs : list request) (resps : list response) : list string :=
  match reqs, resps with
  | r :: reqs', R_pushed _ :: resps' => req_uuid8 r :: drawn reqs' resps'
  | _ :: reqs', _ :: resps' => drawn reqs' resps'
  | _, _ => []
  end.

(** A push, a clear, and a push that draws the token of the first. *)
Definition reuse_trace : list request :=
  [push_request "u1" (JObj [("q", JStr "a")]) "0a1b2c3d";
   user_request "clear_contexts" "u1";
   push_request "u1" (JObj [("q", JStr "b")]) "0a1b2c3d"].

Lemma push_context_response p uuid8 s x :
  (push_context p uuid8 s).1 = R_pushed x → x = new_context_id uuid8.
Proof.
  unfold push_context. repeat case_match; simpl; try done. by intros [= <-].
Qed.

Lemma step_pushed_identifier r s x :
  (step r s).1 = R_pushed x → x = new_context_id (req_uuid8 r).
Proof.
  unfold step.
  destruct (handle_inv (req_function r) (req_body r) (req_uuid8 r) s)
    as [(resp & Herr & ->)|(p & Hp & [[Hf ->]|[[Hf ->]|[[Hf ->]|[[Hf ->]|[Hf ->]]]]])];
    simpl.
  - by intros ->.
  - apply push_context_response.
  - unfold pop_context. by repeat case_match.
  - unfold list_contexts. by repeat case_match.
  - unfold get_context. by repeat case_match.
  - unfold clear_contexts. by repeat case_match.
Qed.

Lemma issued_drawn reqs s :
  issued (run reqs s).1 = map new_context_id (drawn reqs (run reqs s).1).
Proof.
  revert s. induction reqs as [|r reqs IH]; intros s; [done|]. simpl.
  destruct (step r s) as [resp s1] eqn:E1. specialize (IH s1).
  destruct (run reqs s1) as [resps s2]. simpl in *.
  destruct resp; try done. simpl. f_equal; [|done].
  apply (step_pushed_identifier r s). by rewrite E1.
Qed.

(** C7, as stated, fails: after a clear, a push whose token repeats the one
    drawn before the clear returns the identifier handed out before it. *)
Lemma C7_identifier_reused_after_clear :
  (run reuse_trace empty_store).1
    = [R_pushed "ctx_0a1b2c3d"; R_cleared; R_pushed "ctx_0a1b2c3d"] ∧
  ¬ NoDup (issued (run reuse_trace empty_store).1).
Proof.
  assert ((run reuse_trace empty_store).1
    = [R_pushed "ctx_0a1b2c3d"; R_cleared; R_pushed "ctx_0a1b2c3d"]) as H
    by (vm_compute; reflexivity).
  split; [exact H|]. rewrite H. simpl.
  intros [Hnotin _]%NoDup_cons. apply Hnotin. by left.
Qed.

(** C7 (amended): over every sequence of calls from every store, clears
    included, the identifiers the pushes return are "ctx_" followed by the
    tokens drawn, in order; so they are pairwise distinct exactly when the
    tokens drawn are pairwise distinct.  The store keeps no record of the
    identifiers it has handed out. *)
Theorem C7_identifiers_follow_tokens (reqs : list request) (s : store) :
  issued (run reqs s).1 = map new_context_id (drawn reqs (run reqs s).1) ∧
  (NoDup (issued (run reqs s).1) ↔ NoDup (drawn reqs (run reqs s).1)).
Proof.
  split; [apply issued_drawn|]. rewrite issued_drawn. split.
  - apply NoDup_fmap_1.
  - apply NoDup_fmap_2. intros t1 t2. apply new_context_id_inj.
Qed.

(** ** C8: the dispatcher *)

Lemma operations_supported function_name p uuid8 s :
  function_name ∈ function_names →
  (handle_mcp_request function_name (Body_json p) uuid8 s).1 ≠ not_supported function_name.
Proof.
  intros Hin. rewrite (handle_cases _ (Body_json _) _ _ _ eq_refl).
  unfold function_names in Hin.
  repeat (apply elem_of_cons in Hin as [->|Hin]); [..|by apply elem_of_nil in Hin]; simpl.
  - unfold push_context. by repeat case_match.
  - unfold pop_context. by repeat case_match.
  - unfold list_contexts. by repeat case_match.
  - unfold get_context. by repeat case_match.
  - unfold clear_contexts. by repeat case_match.
Qed.

Lemma missing_user_id function_name p uuid8 s :
  function_name ∈ function_names →
  required_str (param_user_id p) = None →
  handle_mcp_request function_name (Body_json p) uuid8 s = (user_id_required, s).
Proof.
  intros Hin Hu. rewrite (handle_cases _ (Body_json _) _ _ _ eq_refl).
  unfold function_names in Hin.
  repeat (apply elem_of_cons in Hin as [->|Hin]); [..|by apply elem_of_nil in Hin]; simpl.
  - unfold push_context. by rewrite Hu.
  - unfold pop_context. by rewrite Hu.
  - unfold list_contexts. by rewrite Hu.
  - unfold get_context. by rewrite Hu.
  - unfold clear_contexts. by rewrite Hu.
Qed.

(** C8: the dispatcher serves exactly the five function names; any other
    name gets the answer "Function <name> not supported"; a served function
    whose user_id is absent or empty gets "user_id parameter is required",
    a get whose context_id is absent or empty gets "context_id parameter is
    required", a push whose context is absent or empty gets "context
    parameter is required"; each of these answers is the same whatever the
    store holds, and leaves the store as it is. *)
Theorem C8_dispatch (function_name : string) (p : parameters) (uuid8 : string) (s : store) :
  (function_name ∈ function_names ↔
     (handle_mcp_request function_name (Body_json p) uuid8 s).1
       ≠ not_supported function_name) ∧
  (function_name ∉ function_names →
     handle_mcp_request function_name (Body_json p) uuid8 s
       = (not_supported function_name, s)) ∧
  (function_name ∈ function_names →
   (param_user_id p = None ∨ param_user_id p = Some "") →
     handle_mcp_request function_name (Body_json p) uuid8 s = (user_id_required, s)) ∧
  (∀ u, param_user_id p = Some u → u ≠ "" →
   (param_context_id p = None ∨ param_context_id p = Some "") →
     handle_mcp_request "get_context" (Body_json p) uuid8 s = (context_id_required, s)) ∧
  (∀ u, param_user_id p = Some u → u ≠ "" →
   (param_context p = None ∨ ∃ c, param_context p = Some c ∧ truthy c = false) →
     handle_mcp_request "push_context" (Body_json p) uuid8 s = (context_required, s)).
Proof.
  assert (function_name ∉ function_names →
     handle_mcp_request function_name (Body_json p) uuid8 s
       = (not_supported function_name, s)) as Hother.
  { intros Hnotin. rewrite (handle_cases _ (Body_json _) _ _ _ eq_refl).
    unfold function_names in Hnotin.
    repeat (case_decide; [subst; set_solver|]). done. }
  split_and!; [|done|..].
  - split; [apply operations_supported|].
    intros Hne. destruct (decide (function_name ∈ function_names)) as [|Hnotin]; [done|].
    by rewrite (Hother Hnotin) in Hne.
  - intros Hin Hu%required_str_None. by apply missing_user_id.
  - intros u Hp Hu Hx%required_str_None.
    rewrite (handle_cases _ (Body_json _) _ _ _ eq_refl). simpl.
    unfold get_context. rewrite Hp, (proj2 (required_str_Some _ u)) by done.
    by rewrite Hx.
  - intros u Hp Hu Hc%required_json_None.
    rewrite (handle_cases _ (Body_json _) _ _ _ eq_refl). simpl.
    unfold push_context. rewrite Hp, (proj2 (required_str_Some _ u)) by done.
    by rewrite Hc.
Qed.

Lemma C8_dispatch_witness :
  handle_mcp_request "peek_context" (Body_json (Parameters (Some "u1") None None)) ""
    one_push_store
    = (R_error "Function peek_context not supported", one_push_store) ∧
  handle_mcp_request "pop_context" (Body_json (Parameters (Some "") None None)) ""
    one_push_store
    = (R_error "user_id parameter is required", one_push_store) ∧
  handle_mcp_request "get_context" (Body_json (Parameters (Some "u1") None (Some ""))) ""
    one_push_store
    = (R_error "context_id parameter is required", one_push_store) ∧
  handle_mcp_request "push_context" (Body_json (Parameters (Some "u1") None None)) ""
    one_push_store
    = (R_error "context parameter is required", one_push_store).
Proof.
  split_and!.
  - apply (proj1 (proj2 (C8_dispatch "peek_context" (Parameters (Some "u1") None None) ""
                           one_push_store))).
    unfold function_names. set_solver.
  - apply (proj1 (proj2 (proj2 (C8_dispatch "pop_context" (Parameters (Some "") None None)
                                  "" one_push_store)))).
    + unfold function_names. set_solver.
    + by right.
  - apply (proj1 (proj2 (proj2 (proj2 (C8_dispatch "get_context"
             (Parameters (Some "u1") None (Some "")) "" one_push_store)))) "u1");
      [reflexivity|discriminate|by right].
  - apply (proj2 (proj2 (proj2 (proj2 (C8_dispatch "push_context"
             (Parameters (Some "u1") None None) "" one_push_store)))) "u1");
      [reflexivity|discriminate|by left].
Defined.

(** ** C9: what changes the store *)

Lemma reads_keep_store r s :
  req_function r = "get_context" ∨ req_function r = "list_contexts" →
  (step r s).2 = s.
Proof.
  intros Hf. unfold step.
  destruct (handle_inv (req_function r) (req_body r) (req_uuid8 r) s)
    as [(resp & Herr & ->)|(p & Hp & [[Hf' ->]|[[Hf' ->]|[[Hf' ->]|[[Hf' ->]|[Hf' ->]]]]])];
    try done; try (rewrite Hf' in Hf; by destruct Hf).
  - unfold list_contexts. by repeat case_match.
  - unfold get_context. by repeat case_match.
Qed.

(** C9: [get_context] and [list_contexts] leave every store exactly as it
    was, whatever they answer; in a reachable store every call that
    answers with an error envelope (a missing parameter, a refused context,
    a pop on an empty stack, a get that finds nothing, an unsupported
    function name, a body that is not JSON) leaves the whole store as it
    was; and a call that does change the store is a push, a pop or a clear
    that reports success. *)
Theorem C9_store_frame (r : request) (s : store) :
  (req_function r = "get_context" ∨ req_function r = "list_contexts" →
     (step r s).2 = s) ∧
  (reachable s → is_error (step r s).1 = true → (step r s).2 = s) ∧
  (reachable s → (step r s).2 ≠ s →
     req_function r ∈ ["push_context"; "pop_context"; "clear_contexts"] ∧
     is_success (step r s).1 = true).
Proof.
  split_and!; [apply reads_keep_store|..].
  - intros Hs Herr.
    pose proof (step_call_result r s (reachable_agree s Hs)) as H.
    destruct H; done.
  - intros Hs Hne.
    pose proof (step_call_result r s (reachable_agree s Hs)) as H.
    destruct H as [| | |p u c Hf|p u order' x Hf|p u Hf|]; try done;
      rewrite Hf; split; try done; set_solver.
Qed.

Lemma C9_store_frame_witness :
  (step (get_request "u1" "ctx_0a1b2c3d") one_push_store).2 = one_push_store ∧
  (step (user_request "pop_context" "u2") one_push_store).2 = one_push_store ∧
  (step (Request "push_context" Body_invalid "4e5f6a7b") one_push_store).2 = one_push_store.
Proof.
  split_and!.
  - apply (proj1 (C9_store_frame (get_request "u1" "ctx_0a1b2c3d") one_push_store)).
    by left.
  - apply (proj1 (proj2 (C9_store_frame (user_request "pop_context" "u2") one_push_store))).
    + apply reachable_fresh_reachable, one_push_store_fresh.
    + vm_compute. reflexivity.
  - apply (proj1 (proj2 (C9_store_frame (Request "push_context" Body_invalid "4e5f6a7b")
                           one_push_store))).
    + apply reachable_fresh_reachable, one_push_store_fresh.
    + reflexivity.
Defined.

(** * The relay *)

(** The POST that [proxy] hands to [httpx]: its URL, [content=], [headers=]
    and, where the call passes one, [auth=]. *)
Record upstream_post : Type := UpstreamPost {
  post_url : string;
  post_content : list Byte.byte;
  post_headers : gmap string string;
  post_auth : option (string * string)
}.

(** The arguments of the [JSONResponse] the relay returns. *)
Record json_response : Type := JSONResponse {
  reply_content : json;
  reply_status_code : Z;
  reply_headers : gmap string string
}.

(** The headers of the replies the relay makes up itself. *)
Definition cors_headers : gmap string string :=
  {[ "Access-Control-Allow-Origin" := "*";
     "Access-Control-Allow-Credentials" := "false" ]}.

(** [{"error": message}] with status 500. *)
Definition error_reply (message : string) : json_response :=
  JSONResponse (JObj [("error", JStr message)]) 500%Z cors_headers.

(** What [json.loads(body)] does with the bytes of a body: it yields a
    value, raises [json.JSONDecodeError], or raises another exception
    (bytes that are no text, nesting too deep), of which [str(e)] is
    kept. *)
Inductive loads_outcome : Type :=
| Loads_value
| Loads_not_json
| Loads_raises (message : string).

(** The logging block that opens [proxy]: [json.loads] is tried on a body
    that is not empty, and only [json.JSONDecodeError] is caught there.
    The result is the message of the exception that escapes the block, if
    one does. *)
Definition log_body (json_loads : list Byte.byte → loads_outcome)
    (body : list Byte.byte) : option string :=
  match body with
  | [] => None
  | _ :: _ =>
      match json_loads body with
      | Loads_raises message => Some message
      | Loads_value | Loads_not_json => None
      end
  end.

(** [if k in headers: del headers[k]] *)
Definition del_if_present (k : string) (headers : gmap string string) : gmap string string :=
  match headers !! k with
  | Some _ => delete k headers
  | None => headers
  end.

(** The two [del] statements that follow [headers = dict(request.headers)]. *)
Definition strip_authorization (headers : gmap string string) : gmap string string :=
  del_if_present "Authorization" (del_if_present "authorization" headers).

(** [f"{UPSTREAM_URL}/mcp/{endpoint}"] *)
Definition upstream_endpoint (UPSTREAM_URL endpoint : string) : string :=
  UPSTREAM_URL +:+ "/mcp/" +:+ endpoint.

(** [proxy] up to the upstream call: the POST it sends, or, when the
    logging block raises, the reply of its last [except] clause, in which
    case nothing is sent.  [json_loads] stands for [json.loads] and
    [request_headers] for [dict(request.headers)]. *)

(** src/context7-mcp-update/relay.py *)
Module McpUpdateRelay.

Definition proxy (json_loads : list Byte.byte → loads_outcome)
    (UPSTREAM_URL endpoint : string) (body : list Byte.byte)
    (request_headers : gmap string string) : json_response + upstream_post :=
  match log_body json_loads body with
  | Some message => inl (error_reply ("Unexpected error: " +:+ message))
  | None =>
      let headers := strip_authorization request_headers in
      inr (UpstreamPost (upstream_endpoint UPSTREAM_URL endpoint) body headers None)
  end.

End McpUpdateRelay.

(** src/context7-relay-update/relay.py, which also passes [auth=]. *)
Module RelayUpdateRelay.

Definition proxy (json_loads : list Byte.byte → loads_outcome)
    (UPSTREAM_URL endpoint : string) (body : list Byte.byte)
    (request_headers : gmap string string) : json_response + upstream_post :=
  match log_body json_loads body with
  | Some message => inl (error_reply ("Unexpected error: " +:+ message))
  | None =>
      let headers := strip_authorization request_headers in
      inr (UpstreamPost (upstream_endpoint UPSTREAM_URL endpoint) body headers
             (Some ("instabids", "secure123password")))
  end.

End RelayUpdateRelay.





Lemma del_if_present_lookup k headers k' :
  del_if_present k headers !! k' = if decide (k = k') then None else headers !! k'.
Proof.
  unfold del_if_present. destruct (headers !! k) as [v|] eqn:E.
  - rewrite lookup_delete. by case_decide.
  - case_decide; [by subst|done].
Qed.

Lemma strip_authorization_lookup headers k :
  strip_authorization headers !! k =
    if decide (k = "authorization" ∨ k = "Authorization") then None else headers !! k.
Proof.
  unfold strip_authorization. rewrite !del_if_present_lookup.
  repeat case_decide; try done; exfalso; intuition congruence.
Qed.




(** An inbound map as an ASGI server hands it over, names in lower case. *)
Definition bearer_headers : gmap string string :=
  {[ "authorization" := "Bearer caller-token"; "content-type" := "application/json" ]}.



(** * The scenario of the spec (section 8), run on the model *)

Definition scenario : list request :=
  [push_request "u1" (JObj [("q", JStr "a")]) "0a1b2c3d";
   push_request "u1" (JObj [("q", JStr "b")]) "4e5f6a7b";
   user_request "list_contexts" "u1";
   user_request "pop_context" "u1";
   user_request "list_contexts" "u1";
   user_request "clear_contexts" "u1";
   user_request "list_contexts" "u1"].

Example scenario_responses :
  (run scenario empty_store).1 =
    [R_pushed "ctx_0a1b2c3d";
     R_pushed "ctx_4e5f6a7b";
     R_contexts [("ctx_0a1b2c3d", JObj [("q", JStr "a")]);
                 ("ctx_4e5f6a7b", JObj [("q", JStr "b")])];
     R_popped "ctx_4e5f6a7b" (JObj [("q", JStr "b")]);
     R_contexts [("ctx_0a1b2c3d", JObj [("q", JStr "a")])];
     R_cleared;
     R_contexts []].
Proof. vm_compute. reflexivity. Qed.

(** Calls the server refuses, on the store the scenario starts from. *)
Definition refused_calls : list request :=
  [user_request "pop_context" "u1";
   get_request "u1" "ctx_0a1b2c3d";
   user_request "list_contexts" "";
   user_request "peek_context" "u1";
   Request "push_context" Body_invalid "0a1b2c3d";
   Request "push_context" Body_not_object "0a1b2c3d";
   Request "clear_contexts" Body_empty ""].

Example refused_calls_responses :
  run refused_calls empty_store =
    ([R_failure "No contexts to pop";
      R_failure "Context with id ctx_0a1b2c3d not found for user u1";
      R_error "user_id parameter is required";
      R_error "Function peek_context not supported";
      R_error "Invalid JSON in request body";
      R_exception AttributeError;
      R_error "user_id parameter is required"],
     empty_store).
Proof. vm_compute. reflexivity. Qed.

(** * Further properties of the handler *)

(** The user a call is about: the [user_id] that passes [if not user_id],
    when the body yields a dictionary. *)
Definition request_user (r : request) : option string :=
  match load_parameters (req_body r) with
  | inr (Some p) => required_str (param_user_id p)
  | _ => None
  end.

Lemma request_user_Some r p u :
  load_parameters (req_body r) = inr (Some p) →
  required_str (param_user_id p) = Some u →
  request_user r = Some u.
Proof. intros Hp Hu. unfold request_user. by rewrite Hp. Qed.

Lemma run_app reqs1 reqs2 s :
  run (reqs1 ++ reqs2) s =
    ((run reqs1 s).1 ++ (run reqs2 (run reqs1 s).2).1, (run reqs2 (run reqs1 s).2).2).
Proof.
  revert s. induction reqs1 as [|r reqs1 IH]; intros s; simpl.
  - by destruct (run reqs2 s).
  - destruct (step r s) as [resp s1]. rewrite IH.
    destruct (run reqs1 s1) as [resps1 s2]. simpl.
    by destruct (run reqs2 s2).
Qed.

(** ** No [KeyError] from the two dictionaries *)

Lemma step_no_exception r s p :
  stacks_agree s →
  load_parameters (req_body r) = inr (Some p) →
  ∀ e, (step r s).1 ≠ R_exception e.
Proof.
  intros Hag Hp e. unfold step. rewrite (handle_cases _ _ _ _ p Hp).
  repeat case_decide; [| | | | |done].
  - destruct (required_str (param_user_id p)) as [u|] eqn:Hu.
    + destruct (required_json (param_context p)) as [c|] eqn:Hc.
      * by rewrite (push_context_agree p _ s u c Hag Hu Hc).
      * unfold push_context. by rewrite Hu, Hc.
    + unfold push_context. by rewrite Hu.
  - destruct (required_str (param_user_id p)) as [u|] eqn:Hu.
    + destruct (snoc_or_nil (user_order s u)) as [Ho|(order' & x & Ho)].
      * by rewrite (pop_context_empty p s u Hu Ho).
      * by rewrite (pop_context_agree p s u order' x Hag Hu Ho).
    + unfold pop_context. by rewrite Hu.
  - destruct (required_str (param_user_id p)) as [u|] eqn:Hu.
    + by rewrite (list_contexts_agree p s u Hag Hu).
    + unfold list_contexts. by rewrite Hu.
  - unfold get_context. by repeat case_match.
  - unfold clear_contexts. by repeat case_match.
Qed.

(** X1: the two dictionaries are never read at a key they lack.  With
    user_id and context_id strings or absent, as [parameters] has them, in
    every reachable store no call, whatever its function name, body and
    parameters, makes [contexts[user_id]] or [context_stacks[user_id]]
    raise [KeyError]. *)
Theorem X1_no_key_error (r : request) (s : store) :
  reachable s →
  ∀ key, (step r s).1 ≠ R_exception (KeyError key).
Proof.
  intros Hs key. pose proof (reachable_agree s Hs) as Hag.
  destruct (load_parameters (req_body r)) as [e|[p|]] eqn:Hp.
  - unfold step, handle_mcp_request. rewrite Hp. simpl.
    destruct (req_body r); try done; simpl in Hp; by injection Hp as <-.
  - by apply (step_no_exception r s p).
  - unfold step, handle_mcp_request. rewrite Hp. unfold with_parameters.
    by repeat case_match.
Qed.

Lemma X1_no_key_error_witness :
  (step (user_request "pop_context" "u1") one_push_store).1 ≠ R_exception (KeyError "u1").
Proof.
  apply (X1_no_key_error (user_request "pop_context" "u1") one_push_store).
  apply reachable_fresh_reachable, one_push_store_fresh.
Defined.

(** ** Users are never forgotten, and only a push makes one known *)

Lemma call_result_users r s resp s' :
  stacks_agree s → call_result r s resp s' →
  dom (contexts s') = dom (contexts s) ∨
  (∃ u, request_user r = Some u ∧ req_function r = "push_context" ∧
        resp = R_pushed (new_context_id (req_uuid8 r)) ∧
        contexts s !! u = None ∧
        dom (contexts s') = {[u]} ∪ dom (contexts s)).
Proof.
  intros Hag H.
  destruct H as [| | |p u c Hf Hp Hu Hc|p u order' x Hf Hp Hu Ho|p u Hf Hp Hu Hm|];
    try (by left).
  - unfold pushed. simpl. rewrite dom_insert_L.
    destruct (contexts s !! u) as [entries|] eqn:Hm.
    + left. apply elem_of_dom_2 in Hm. set_solver.
    + right. exists u. split_and!; try done. by eapply request_user_Some.
  - left. unfold popped. simpl. rewrite dom_insert_L.
    assert (is_Some (contexts s !! u)) as Hm.
    { apply Hag. unfold user_order in Ho.
      destruct (context_stacks s !! u); [done|by destruct order']. }
    apply elem_of_dom in Hm. set_solver.
  - left. unfold cleared. simpl. rewrite dom_insert_L.
    apply elem_of_dom in Hm. set_solver.
Qed.

(** X2: in every reachable store no call removes a user from [contexts]
    (a clear empties the user's entries and keeps the key, a pop of the
    last context likewise); and a user that becomes known does so through
    a push for that user that succeeds. *)
Theorem X2_users_never_forgotten (r : request) (s : store) :
  reachable s →
  dom (contexts s) ⊆ dom (contexts (step r s).2) ∧
  dom (contexts (step r s).2) = dom (context_stacks (step r s).2) ∧
  ∀ u, u ∈ dom (contexts (step r s).2) → u ∉ dom (contexts s) →
    request_user r = Some u ∧ req_function r = "push_context" ∧
    (step r s).1 = R_pushed (new_context_id (req_uuid8 r)).
Proof.
  intros Hs. pose proof (reachable_agree s Hs) as Hag.
  pose proof (call_result_users r s _ _ Hag (step_call_result r s Hag)) as H.
  split_and!.
  - destruct H as [->|(u & _ & _ & _ & _ & ->)]; set_solver.
  - apply set_eq. intros u. rewrite !elem_of_dom. apply (step_agree r s Hag).
  - intros u Hin Hnotin.
    destruct H as [Heq|(u' & Hu & Hf & Hr & _ & Heq)]; rewrite Heq in Hin; [done|].
    assert (u = u') as -> by set_solver. done.
Qed.

Lemma X2_users_never_forgotten_witness :
  dom (contexts one_push_store)
    ⊆ dom (contexts (step (user_request "clear_contexts" "u1") one_push_store).2).
Proof.
  apply (proj1 (X2_users_never_forgotten (user_request "clear_contexts" "u1")
                  one_push_store
                  (reachable_fresh_reachable _ one_push_store_fresh))).
Defined.

(** ** A call touches one user only *)

Lemma call_result_frame r s resp s' u' :
  call_result r s resp s' →
  request_user r ≠ Some u' →
  contexts s' !! u' = contexts s !! u' ∧
  context_stacks s' !! u' = context_stacks s !! u'.
Proof.
  intros H Hne.
  destruct H as [| | |p u c Hf Hp Hu Hc|p u order' x Hf Hp Hu Ho|p u Hf Hp Hu Hm|];
    try done;
    (assert (u ≠ u') by (intros ->; by rewrite (request_user_Some r p u') in Hne));
    simpl; by rewrite !lookup_insert_ne.
Qed.

(** X3: in every reachable store a call leaves the entries and the order
    of every user other than the one it names exactly as they were; a call
    that names no valid user leaves all users as they were. *)
Theorem X3_other_users_untouched (r : request) (s : store) (u' : string) :
  reachable s →
  request_user r ≠ Some u' →
  contexts (step r s).2 !! u' = contexts s !! u' ∧
  context_stacks (step r s).2 !! u' = context_stacks s !! u'.
Proof.
  intros Hs Hne. eapply call_result_frame; [|done].
  by apply step_call_result, reachable_agree.
Qed.

Lemma X3_other_users_untouched_witness :
  contexts (step (push_request "u2" (JStr "b") "4e5f6a7b") one_push_store).2 !! "u1"
    = contexts one_push_store !! "u1" ∧
  context_stacks (step (push_request "u2" (JStr "b") "4e5f6a7b") one_push_store).2 !! "u1"
    = context_stacks one_push_store !! "u1".
Proof.
  apply (X3_other_users_untouched (push_request "u2" (JStr "b") "4e5f6a7b")
           one_push_store "u1").
  - apply reachable_fresh_reachable, one_push_store_fresh.
  - discriminate.
Defined.

(** ** Calls about different users commute *)

Lemma store_eq s t :
  (∀ u, contexts s !! u = contexts t !! u) →
  (∀ u, context_stacks s !! u = context_stacks t !! u) →
  s = t.
Proof.
  destruct s as [cs ss], t as [ct st]. simpl. intros Hc Hs.
  f_equal; by apply map_eq.
Qed.

(** A call that names no valid user answers the same in every store and
    changes none. *)
Lemma step_no_user r s t :
  request_user r = None →
  (step r s).1 = (step r t).1 ∧ (step r s).2 = s.
Proof.
  unfold request_user, step, handle_mcp_request.
  destruct (load_parameters (req_body r)) as [e|[p|]]; [done| |].
  - intros Hu.
    unfold with_parameters, push_context, pop_context, list_contexts, get_context,
      clear_contexts.
    rewrite Hu. by repeat case_match.
  - intros _. unfold with_parameters. by repeat case_match.
Qed.

(** The answer to a call, and what it leaves for the user it names, depend
    on what the store holds for that user only. *)
Lemma step_local r s t u :
  stacks_agree s → stacks_agree t →
  request_user r = Some u →
  contexts s !! u = contexts t !! u →
  context_stacks s !! u = context_stacks t !! u →
  (step r s).1 = (step r t).1 ∧
  contexts (step r s).2 !! u = contexts (step r t).2 !! u ∧
  context_stacks (step r s).2 !! u = context_stacks (step r t).2 !! u.
Proof.
  intros Hs Ht Hr Hc Ho. unfold request_user in Hr.
  destruct (load_parameters (req_body r)) as [e|[p|]] eqn:Hp; try done.
  assert (user_entries s u = user_entries t u) as He by (unfold user_entries; by rewrite Hc).
  assert (user_order s u = user_order t u) as Hl by (unfold user_order; by rewrite Ho).
  unfold step. rewrite !(handle_cases _ _ _ _ p Hp).
  repeat case_decide; [| | | | |done].
  - destruct (required_json (param_context p)) as [c|] eqn:Hctx.
    + rewrite (push_context_agree p _ s u c Hs Hr Hctx).
      rewrite (push_context_agree p _ t u c Ht Hr Hctx).
      unfold pushed. simpl. by rewrite !lookup_insert_eq, He, Hl.
    + unfold push_context. by rewrite Hr, Hctx.
  - destruct (snoc_or_nil (user_order s u)) as [Hnil|(order' & x & Hsnoc)].
    + rewrite (pop_context_empty p s u Hr Hnil).
      by rewrite (pop_context_empty p t u Hr) by (by rewrite <- Hl).
    + rewrite (pop_context_agree p s u order' x Hs Hr Hsnoc).
      rewrite (pop_context_agree p t u order' x Ht Hr) by (by rewrite <- Hl).
      unfold popped. simpl. by rewrite !lookup_insert_eq, He.
  - rewrite (list_contexts_agree p s u Hs Hr), (list_contexts_agree p t u Ht Hr).
    simpl. by rewrite He, Hl.
  - unfold get_context. rewrite Hr, Hc. repeat case_match; simpl; split_and!; congruence.
  - unfold clear_contexts. rewrite Hr, Hc.
    destruct (contexts t !! u) eqn:Et; simpl; [|split_and!; congruence].
    by rewrite !lookup_insert_eq.
Qed.

Lemma step_frame r s u' :
  stacks_agree s → request_user r ≠ Some u' →
  contexts (step r s).2 !! u' = contexts s !! u' ∧
  context_stacks (step r s).2 !! u' = context_stacks s !! u'.
Proof.
  intros Hag Hne. eapply call_result_frame; [|done]. by apply step_call_result.
Qed.

(** The answer of [r] is the same once a call about another user went first. *)
Lemma step_after_other r r' s :
  stacks_agree s →
  (∀ u, request_user r = Some u → request_user r' ≠ Some u) →
  (step r (step r' s).2).1 = (step r s).1 ∧
  ∀ u, request_user r = Some u →
    contexts (step r (step r' s).2).2 !! u = contexts (step r s).2 !! u ∧
    context_stacks (step r (step r' s).2).2 !! u = context_stacks (step r s).2 !! u.
Proof.
  intros Hag Hne. pose proof (step_agree r' s Hag) as Hag'.
  destruct (request_user r) as [u|] eqn:Hr.
  - destruct (step_frame r' s u Hag (Hne u eq_refl)) as [Hc Ho].
    destruct (step_local r (step r' s).2 s u Hag' Hag Hr Hc Ho) as (H1 & H2 & H3).
    split; [done|]. by intros ? [= <-].
  - split; [|done]. apply (step_no_user r _ s Hr).
Qed.

(** X4: in every reachable store two calls that do not name the same user
    commute: served in either order each gets the same answer, and the
    store that results is the same. *)
Theorem X4_calls_for_different_users_commute (r1 r2 : request) (s : store) :
  reachable s →
  (∀ u, request_user r1 = Some u → request_user r2 ≠ Some u) →
  (step r1 (step r2 s).2).1 = (step r1 s).1 ∧
  (step r2 (step r1 s).2).1 = (step r2 s).1 ∧
  (step r2 (step r1 s).2).2 = (step r1 (step r2 s).2).2.
Proof.
  intros Hs Hne. pose proof (reachable_agree s Hs) as Hag.
  assert (∀ u, request_user r2 = Some u → request_user r1 ≠ Some u) as Hne'
    by (intros u H2 H1; by apply (Hne u)).
  destruct (step_after_other r1 r2 s Hag Hne) as [Hr1 Hl1].
  destruct (step_after_other r2 r1 s Hag Hne') as [Hr2 Hl2].
  split_and!; [done..|].
  pose proof (step_agree r1 s Hag) as Hag1.
  pose proof (step_agree r2 s Hag) as Hag2.
  assert (∀ k,
    contexts (step r2 (step r1 s).2).2 !! k = contexts (step r1 (step r2 s).2).2 !! k ∧
    context_stacks (step r2 (step r1 s).2).2 !! k
      = context_stacks (step r1 (step r2 s).2).2 !! k) as Hk.
  { intros k.
    destruct (decide (request_user r1 = Some k)) as [H1|H1].
    - destruct (Hl1 k H1) as [-> ->].
      by apply step_frame; [|apply Hne].
    - destruct (step_frame r1 (step r2 s).2 k Hag2 H1) as [-> ->].
      destruct (decide (request_user r2 = Some k)) as [H2|H2].
      + by destruct (Hl2 k H2) as [-> ->].
      + destruct (step_frame r2 (step r1 s).2 k Hag1 H2) as [-> ->].
        destruct (step_frame r1 s k Hag H1) as [-> ->].
        by destruct (step_frame r2 s k Hag H2) as [-> ->]. }
  apply store_eq; intros k; apply Hk.
Qed.

Lemma X4_calls_for_different_users_commute_witness :
  (step (user_request "pop_context" "u1")
     (step (push_request "u2" (JStr "b") "4e5f6a7b") one_push_store).2).1
    = (step (user_request "pop_context" "u1") one_push_store).1 ∧
  (step (push_request "u2" (JStr "b") "4e5f6a7b")
     (step (user_request "pop_context" "u1") one_push_store).2).1
    = (step (push_request "u2" (JStr "b") "4e5f6a7b") one_push_store).1 ∧
  (step (push_request "u2" (JStr "b") "4e5f6a7b")
     (step (user_request "pop_context" "u1") one_push_store).2).2
    = (step (user_request "pop_context" "u1")
         (step (push_request "u2" (JStr "b") "4e5f6a7b") one_push_store).2).2.
Proof.
  apply (X4_calls_for_different_users_commute
           (user_request "pop_context" "u1") (push_request "u2" (JStr "b") "4e5f6a7b")
           one_push_store).
  - apply reachable_fresh_reachable, one_push_store_fresh.
  - intros u [= <-]. discriminate.
Defined.

(** ** Last in, first out *)

(** [n] pops for one user. *)
Definition pops (user_id : string) (n : nat) : list request :=
  replicate n (user_request "pop_context" user_id).

(** The answers that hand back the pushes [cts]. *)
Definition popped_answers (cts : list (json * string)) : list response :=
  map (λ ct, R_popped (new_context_id ct.2) ct.1) cts.

Lemma step_pop_request s u order' x :
  stacks_agree s → u ≠ "" →
  user_order s u = order' ++ [x] →
  step (user_request "pop_context" u) s =
    (R_popped x (dict_get (user_entries s u) x), popped u x order' s).
Proof.
  intros Hag Hu Ho. unfold step, user_request. simpl.
  rewrite (handle_cases _ (Body_json _) _ _ _ eq_refl). simpl.
  apply pop_context_agree; [done| |done]. by apply required_str_Some.
Qed.

Lemma run_cons r reqs s :
  run (r :: reqs) s =
    ((step r s).1 :: (run reqs (step r s).2).1, (run reqs (step r s).2).2).
Proof.
  simpl. destruct (step r s) as [resp s1]. simpl. by destruct (run reqs s1).
Qed.

Lemma run_pushes_then_pops u cts s :
  reachable_fresh s → u ≠ "" →
  Forall (λ ct, truthy ct.1 = true) cts →
  NoDup (map snd cts) →
  (∀ ct, ct ∈ cts → user_entries s u !! new_context_id ct.2 = None) →
  let s1 := (run (pushes u cts) s).2 in
  (run (pops u (length cts)) s1).1 = reverse (popped_answers cts) ∧
  user_entries (run (pops u (length cts)) s1).2 u = user_entries s u ∧
  user_order (run (pops u (length cts)) s1).2 u = user_order s u.
Proof.
  intros Hs Hu. revert s Hs.
  induction cts as [|[c t] cts IH]; intros s Hs Hc Hnd Hfresh; [done|].
  apply Forall_cons in Hc as [Hc Hcs]. simpl in Hc, Hnd.
  apply NoDup_cons in Hnd as [Ht Hnd].
  assert (user_entries s u !! new_context_id t = None) as Hx
    by (apply (Hfresh (c, t)); by left).
  assert (stacks_agree s) as Hag by by apply reachable_agree, reachable_fresh_reachable.
  pose proof (reachable_fresh_step (push_request u c t) s Hs
                (fresh_draw_push_request s u c t Hx)) as Hs1.
  rewrite (step_push_request s u c t Hag Hu Hc) in Hs1. simpl in Hs1.
  assert (∀ ct, ct ∈ cts →
            user_entries (pushed u (new_context_id t) c s) u !! new_context_id ct.2 = None)
    as Hfresh1.
  { intros [c' t'] Hin. rewrite user_entries_pushed, decide_True by done. simpl.
    rewrite lookup_insert_ne; [by apply (Hfresh (c', t')); right|].
    intros Heq%new_context_id_inj. subst t'. apply Ht.
    apply list_elem_of_fmap. by exists (c', t). }
  specialize (IH (pushed u (new_context_id t) c s) Hs1 Hcs Hnd Hfresh1).
  destruct (run_pushes_listing u cts _ Hs1 Hu Hcs Hnd Hfresh1) as [Hs2 _].
  intros s1. subst s1.
  change (pushes u ((c, t) :: cts)) with (push_request u c t :: pushes u cts).
  change (length ((c, t) :: cts)) with (S (length cts)).
  rewrite run_cons, (step_push_request s u c t Hag Hu Hc).
  cbn [fst snd] in *.
  set (s2 := (run (pushes u cts) (pushed u (new_context_id t) c s)).2) in *.
  destruct IH as (Hresp & He & Ho).
  unfold pops in *. rewrite replicate_S_end, run_app. cbn [fst snd].
  rewrite user_entries_pushed, decide_True in He by done.
  rewrite user_order_pushed, decide_True in Ho by done.
  assert (stacks_agree (run (replicate (length cts) (user_request "pop_context" u)) s2).2)
    as Hag3 by by apply reachable_agree, reachable_run, reachable_fresh_reachable.
  rewrite run_cons, (step_pop_request _ u _ _ Hag3 Hu Ho). cbn [fst snd run].
  rewrite Hresp, user_entries_popped, user_order_popped, !decide_True, He by done.
  unfold popped_answers, dict_get.
  rewrite fmap_cons, reverse_cons, lookup_insert_eq. cbn [fst snd default].
  by rewrite delete_insert_id.
Qed.

Lemma run_frame reqs s u' :
  stacks_agree s →
  Forall (λ r, request_user r ≠ Some u') reqs →
  contexts (run reqs s).2 !! u' = contexts s !! u' ∧
  context_stacks (run reqs s).2 !! u' = context_stacks s !! u'.
Proof.
  revert s. induction reqs as [|r reqs IH]; intros s Hag Hne; [done|].
  apply Forall_cons in Hne as [Hr Hne]. simpl.
  destruct (step_frame r s u' Hag Hr) as [Hc Ho].
  pose proof (step_agree r s Hag) as Hag1.
  destruct (step r s) as [resp s1]. simpl in *.
  destruct (IH s1 Hag1 Hne) as [Hc' Ho'].
  destruct (run reqs s1) as [resps s2]. simpl in *. by rewrite Hc', Ho'.
Qed.

Lemma run_pushes_answers u cts s :
  reachable_fresh s → u ≠ "" →
  Forall (λ ct, truthy ct.1 = true) cts →
  NoDup (map snd cts) →
  (∀ ct, ct ∈ cts → user_entries s u !! new_context_id ct.2 = None) →
  (run (pushes u cts) s).1 = map (λ ct, R_pushed (new_context_id ct.2)) cts.
Proof.
  intros Hs Hu. revert s Hs.
  induction cts as [|[c t] cts IH]; intros s Hs Hc Hnd Hfresh; [done|].
  apply Forall_cons in Hc as [Hc Hcs]. simpl in Hc, Hnd.
  apply NoDup_cons in Hnd as [Ht Hnd].
  assert (user_entries s u !! new_context_id t = None) as Hx
    by (apply (Hfresh (c, t)); by left).
  assert (stacks_agree s) as Hag by by apply reachable_agree, reachable_fresh_reachable.
  pose proof (reachable_fresh_step (push_request u c t) s Hs
                (fresh_draw_push_request s u c t Hx)) as Hs1.
  rewrite (step_push_request s u c t Hag Hu Hc) in Hs1. simpl in Hs1.
  change (pushes u ((c, t) :: cts)) with (push_request u c t :: pushes u cts).
  rewrite run_cons, (step_push_request s u c t Hag Hu Hc). cbn [fst snd].
  rewrite fmap_cons. f_equal. apply IH; [done..|].
  intros [c' t'] Hin. rewrite user_entries_pushed, decide_True by done. simpl.
  rewrite lookup_insert_ne; [by apply (Hfresh (c', t')); right|].
  intros Heq%new_context_id_inj. subst t'. apply Ht.
  apply list_elem_of_fmap. by exists (c', t).
Qed.

(** X5: the stack is last in, first out.  From a store reached with fresh
    draws, after accepted pushes for a user whose tokens are pairwise
    distinct and make identifiers the user does not hold, as many pops
    hand back the pushed (identifier, context) pairs in reverse order, and
    leave the user's entries and order, and those of every other user, as
    they were before the pushes. *)
Theorem X5_last_in_first_out (u : string) (cts : list (json * string)) (s : store) :
  reachable_fresh s → u ≠ "" →
  Forall (λ ct, truthy ct.1 = true) cts →
  NoDup (map snd cts) →
  (∀ ct, ct ∈ cts → user_entries s u !! new_context_id ct.2 = None) →
  let s2 := (run (pushes u cts ++ pops u (length cts)) s).2 in
  (run (pushes u cts ++ pops u (length cts)) s).1
    = map (λ ct, R_pushed (new_context_id ct.2)) cts ++ reverse (popped_answers cts) ∧
  user_entries s2 u = user_entries s u ∧
  user_order s2 u = user_order s u ∧
  ∀ u', u' ≠ u →
    contexts s2 !! u' = contexts s !! u' ∧ context_stacks s2 !! u' = context_stacks s !! u'.
Proof.
  intros Hs Hu Hc Hnd Hfresh s2. subst s2.
  assert (∀ u', u' ≠ u →
    contexts (run (pushes u cts ++ pops u (length cts)) s).2 !! u' = contexts s !! u' ∧
    context_stacks (run (pushes u cts ++ pops u (length cts)) s).2 !! u'
      = context_stacks s !! u') as Hframe.
  { intros u' Hu'.
    apply run_frame; [by apply reachable_agree, reachable_fresh_reachable|].
    apply Forall_app. split.
    - apply Forall_forall. intros r (ct & -> & _)%list_elem_of_fmap.
      change (required_str (Some u) ≠ Some u'). intros Hr.
      apply required_str_Some in Hr as [[= ->] _]. done.
    - apply Forall_forall. intros r [-> _]%elem_of_replicate.
      change (required_str (Some u) ≠ Some u'). intros Hr.
      apply required_str_Some in Hr as [[= ->] _]. done. }
  destruct (run_pushes_then_pops u cts s Hs Hu Hc Hnd Hfresh) as (Hresp & He & Ho).
  rewrite run_app in Hframe |- *. cbn [fst snd] in *.
  by rewrite Hresp, (run_pushes_answers u cts s).
Qed.

Lemma X5_last_in_first_out_witness :
  let s2 := (run (pushes "u1" scenario_pushes ++ pops "u1" 2) empty_store).2 in
  (run (pushes "u1" scenario_pushes ++ pops "u1" 2) empty_store).1
    = map (λ ct, R_pushed (new_context_id ct.2)) scenario_pushes
        ++ reverse (popped_answers scenario_pushes) ∧
  user_entries s2 "u1" = user_entries empty_store "u1" ∧
  user_order s2 "u1" = user_order empty_store "u1" ∧
  ∀ u', u' ≠ "u1" →
    contexts s2 !! u' = contexts empty_store !! u' ∧
    context_stacks s2 !! u' = context_stacks empty_store !! u'.
Proof.
  apply (X5_last_in_first_out "u1" scenario_pushes empty_store).
  - apply reachable_fresh_empty.
  - discriminate.
  - repeat constructor.
  - simpl. repeat constructor; set_solver.
  - intros ct _. rewrite user_entries_empty. apply lookup_empty.
Defined.

(** ** The identifiers a store holds *)

(** An identifier made by [push_context]. *)
Definition minted (x : string) : Prop := ∃ uuid8, x = new_context_id uuid8.

(** Every identifier in a user's order or entries was made by a push. *)
Definition identifiers_minted (s : store) : Prop :=
  ∀ u x, (x ∈ user_order s u ∨ is_Some (user_entries s u !! x)) → minted x.

Lemma minted_nonempty x : minted x → x ≠ "".
Proof. by intros [t ->]. Qed.

Lemma call_result_minted r s resp s' :
  call_result r s resp s' → identifiers_minted s → identifiers_minted s'.
Proof.
  intros H Hinv.
  destruct H as [| | |p u c Hf Hp Hu Hc|p u order' x Hf Hp Hu Ho|p u Hf Hp Hu Hm|];
    try done; intros u' y.
  - rewrite user_order_pushed, user_entries_pushed.
    case_decide; [subst u'|apply Hinv].
    rewrite elem_of_app, list_elem_of_singleton, lookup_insert_is_Some.
    intros [[Hy| ->]|[<-|[_ Hy]]]; try (by eexists); apply (Hinv u); auto.
  - rewrite user_order_popped, user_entries_popped.
    case_decide; [subst u'|apply Hinv].
    rewrite lookup_delete_is_Some.
    intros [Hy|[_ Hy]]; apply (Hinv u); [left|by right].
    rewrite Ho. apply elem_of_app. by left.
  - rewrite user_order_cleared, user_entries_cleared.
    case_decide; [subst u'|apply Hinv].
    rewrite lookup_empty. intros [Hy|[? Hy]]; [by apply elem_of_nil in Hy|done].
Qed.

Lemma reachable_minted s : reachable s → identifiers_minted s.
Proof.
  induction 1 as [|r s Hs IH].
  - intros u x. rewrite user_order_empty, user_entries_empty, lookup_empty.
    intros [Hx|[? Hx]]; [by apply elem_of_nil in Hx|done].
  - eapply call_result_minted; [|done]. by apply step_call_result, reachable_agree.
Qed.

(** X6: in every reachable store every identifier held, in any user's
    order or entries, is "ctx_" followed by the token of the push that made
    it; so no identifier is empty, and each can be named in a
    [get_context]. *)
Theorem X6_identifiers_are_minted (s : store) (u x : string) :
  reachable s →
  (x ∈ user_order s u ∨ is_Some (user_entries s u !! x)) →
  (∃ uuid8, x = "ctx_" +:+ uuid8) ∧ x ≠ "".
Proof.
  intros Hs Hx. pose proof (reachable_minted s Hs u x Hx) as Hm.
  split; [exact Hm|by apply minted_nonempty].
Qed.

Lemma X6_identifiers_are_minted_witness :
  (∃ uuid8, "ctx_0a1b2c3d" = "ctx_" +:+ uuid8) ∧ "ctx_0a1b2c3d" ≠ "".
Proof.
  apply (X6_identifiers_are_minted one_push_store "u1" "ctx_0a1b2c3d").
  - apply reachable_fresh_reachable, one_push_store_fresh.
  - left. vm_compute. by left.
Defined.

(** ** get and list agree *)

Lemma step_get_request_found s u x c :
  u ≠ "" → x ≠ "" → user_entries s u !! x = Some c →
  step (get_request u x) s = (R_found x c, s).
Proof.
  intros Hu Hx Hc. unfold step, get_request. simpl.
  rewrite (handle_cases _ (Body_json _) _ _ _ eq_refl). simpl.
  apply (get_context_found _ s u x c); [by apply required_str_Some..|done].
Qed.

Lemma step_get_request_missing s u x :
  u ≠ "" → x ≠ "" → user_entries s u !! x = None →
  step (get_request u x) s = (not_found x u, s).
Proof.
  intros Hu Hx Hc. unfold step, get_request. simpl.
  rewrite (handle_cases _ (Body_json _) _ _ _ eq_refl). simpl.
  apply (get_context_missing _ s u x); [by apply required_str_Some..|done].
Qed.

Lemma elem_of_contexts_listing s u x c :
  (x, c) ∈ contexts_listing s u ↔ x ∈ user_order s u ∧ c = dict_get (user_entries s u) x.
Proof.
  unfold contexts_listing. rewrite list_elem_of_fmap. split.
  - intros (y & [= -> ->] & Hy). done.
  - intros [Hx ->]. by exists x.
Qed.

(** X7: where the invariant of the data model holds, [get_context] and
    [list_contexts] agree for a valid user: the listing has one pair per
    entry, no identifier twice, and a pair (identifier, context) is listed
    exactly when a get for the identifier answers with that context. *)
Theorem X7_get_agrees_with_list (s : store) (u : string) :
  store_invariant s → u ≠ "" →
  (step (user_request "list_contexts" u) s).1 = R_contexts (contexts_listing s u) ∧
  length (contexts_listing s u) = size (user_entries s u) ∧
  NoDup (map fst (contexts_listing s u)) ∧
  ∀ x c, x ≠ "" →
    ((x, c) ∈ contexts_listing s u ↔ (step (get_request u x) s).1 = R_found x c).
Proof.
  intros Hinv Hu. pose proof (store_invariant_agree s Hinv) as Hag.
  destruct (store_invariant_lockstep s u Hinv) as [Hnd Hdom].
  split_and!.
  - unfold step, user_request. simpl.
    by rewrite (handle_list_contexts s (Parameters (Some u) None None) u "" Hag eq_refl Hu).
  - unfold contexts_listing. rewrite length_map, <- size_dom, <- Hdom.
    by rewrite size_list_to_set.
  - unfold contexts_listing. rewrite map_map. simpl. by rewrite map_id.
  - intros x c Hx. rewrite elem_of_contexts_listing.
    assert (x ∈ user_order s u ↔ is_Some (user_entries s u !! x)) as Hin
      by (by rewrite <- elem_of_dom, <- Hdom, elem_of_list_to_set).
    destruct (user_entries s u !! x) as [c'|] eqn:Hc.
    + rewrite (step_get_request_found s u x c' Hu Hx Hc). unfold dict_get. rewrite Hc.
      simpl. split; [by intros [_ ->]|]. intros [= ->]. split; [|done].
      apply Hin. by eexists.
    + rewrite (step_get_request_missing s u x Hu Hx Hc). simpl.
      split; [|done]. intros [Hx' _]. apply Hin in Hx' as [? ?]. done.
Qed.

Lemma X7_get_agrees_with_list_witness :
  (step (user_request "list_contexts" "u1") one_push_store).1
    = R_contexts (contexts_listing one_push_store "u1") ∧
  length (contexts_listing one_push_store "u1") = size (user_entries one_push_store "u1") ∧
  NoDup (map fst (contexts_listing one_push_store "u1")) ∧
  ∀ x c, x ≠ "" →
    ((x, c) ∈ contexts_listing one_push_store "u1" ↔
     (step (get_request "u1" x) one_push_store).1 = R_found x c).
Proof.
  apply (X7_get_agrees_with_list one_push_store "u1").
  - apply reachable_fresh_invariant, one_push_store_fresh.
  - discriminate.
Defined.

(** ** A pop takes the last pair off the listing *)

(** X8: where the invariant of the data model holds, a pop for a valid
    user whose listing ends in the pair (identifier, context) answers with
    that pair, and the listing afterwards is the listing before without
    its last pair; the invariant still holds for the user. *)
Theorem X8_pop_takes_last_listed (s : store) (u x : string) (c : json)
    (rest : list (string * json)) :
  store_invariant s → u ≠ "" →
  contexts_listing s u = rest ++ [(x, c)] →
  (step (user_request "pop_context" u) s).1 = R_popped x c ∧
  contexts_listing (step (user_request "pop_context" u) s).2 u = rest ∧
  lockstep (step (user_request "pop_context" u) s).2 u.
Proof.
  intros Hinv Hu Hl. pose proof (store_invariant_agree s Hinv) as Hag.
  destruct (store_invariant_lockstep s u Hinv) as [Hnd Hdom].
  unfold contexts_listing in Hl.
  destruct (snoc_or_nil (user_order s u)) as [Ho|(order' & x' & Ho)].
  { rewrite Ho in Hl. by destruct rest. }
  rewrite Ho, map_app in Hl. simpl in Hl.
  apply app_inj_tail in Hl as [Hrest [= <- Hc]].
  rewrite (step_pop_request s u order' x' Hag Hu Ho). simpl.
  rewrite Ho in Hnd, Hdom. apply NoDup_app in Hnd as (Hnd & Hnotin & _).
  assert (x' ∉ order') as Hx by (intros Hx; apply (Hnotin x' Hx); set_solver).
  split_and!.
  - by rewrite Hc.
  - unfold contexts_listing.
    rewrite user_order_popped, user_entries_popped, !decide_True by done.
    rewrite <- Hrest. apply map_ext_in. intros y Hy%list_elem_of_In. f_equal.
    unfold dict_get. rewrite lookup_delete_ne; [done|]. by intros ->.
  - unfold lockstep. rewrite user_order_popped, user_entries_popped, !decide_True by done.
    split; [done|]. rewrite dom_delete_L, <- Hdom, list_to_set_app_L. set_solver.
Qed.

Lemma X8_pop_takes_last_listed_witness :
  (step (user_request "pop_context" "u1") one_push_store).1
    = R_popped "ctx_0a1b2c3d" (JObj [("q", JStr "a")]) ∧
  contexts_listing (step (user_request "pop_context" "u1") one_push_store).2 "u1" = [] ∧
  lockstep (step (user_request "pop_context" "u1") one_push_store).2 "u1".
Proof.
  apply (X8_pop_takes_last_listed one_push_store "u1" "ctx_0a1b2c3d"
           (JObj [("q", JStr "a")]) []).
  - apply reachable_fresh_invariant, one_push_store_fresh.
  - discriminate.
  - vm_compute. reflexivity.
Defined.

(** ** The life of an identifier *)

Lemma step_pop_request_empty s u :
  u ≠ "" → user_order s u = [] →
  step (user_request "pop_context" u) s = (no_contexts_to_pop, s).
Proof.
  intros Hu Ho. unfold step, user_request. simpl.
  rewrite (handle_cases _ (Body_json _) _ _ _ eq_refl). simpl.
  apply (pop_context_empty _ s u); [by apply required_str_Some|done].
Qed.

Lemma step_clear_request s u :
  u ≠ "" →
  (step (user_request "clear_contexts" u) s).1 = R_cleared ∧
  user_entries (step (user_request "clear_contexts" u) s).2 u = ∅ ∧
  (stacks_agree s → user_order (step (user_request "clear_contexts" u) s).2 u = []).
Proof.
  intros Hu. unfold step, user_request. simpl.
  rewrite (handle_cases _ (Body_json _) _ _ _ eq_refl). simpl.
  assert (required_str (Some u) = Some u) as Hru by by apply required_str_Some.
  destruct (contexts s !! u) as [entries|] eqn:Hm.
  - rewrite (clear_contexts_known (Parameters (Some u) None None) s u Hru)
      by (by rewrite Hm).
    simpl. by rewrite user_entries_cleared, user_order_cleared, !decide_True.
  - rewrite (clear_contexts_unknown (Parameters (Some u) None None) s u Hru Hm). simpl.
    unfold user_entries, user_order. rewrite Hm. split_and!; [done..|].
    intros Hag. assert (context_stacks s !! u = None) as ->; [|done].
    apply eq_None_not_Some. rewrite <- (Hag u), Hm. by intros [? ?].
Qed.

(** X9: in every reachable store and for a valid user, an identifier can
    be fetched from the push that returns it until the pop that returns it
    or the next clear: a get for the identifier of an accepted push finds
    the pushed context; a get for the identifier a pop returned finds
    nothing; and after a clear every get finds nothing and a pop is
    refused with "No contexts to pop". *)
Theorem X9_identifier_lifetime (s : store) (u : string) :
  reachable s → u ≠ "" →
  (∀ c uuid8, truthy c = true →
     let s1 := (step (push_request u c uuid8) s).2 in
     step (get_request u (new_context_id uuid8)) s1
       = (R_found (new_context_id uuid8) c, s1)) ∧
  (∀ x c, (step (user_request "pop_context" u) s).1 = R_popped x c →
     let s1 := (step (user_request "pop_context" u) s).2 in
     step (get_request u x) s1 = (not_found x u, s1)) ∧
  (let s1 := (step (user_request "clear_contexts" u) s).2 in
   (∀ x, x ≠ "" → step (get_request u x) s1 = (not_found x u, s1)) ∧
   step (user_request "pop_context" u) s1 = (no_contexts_to_pop, s1)).
Proof.
  intros Hs Hu. pose proof (reachable_agree s Hs) as Hag. split_and!.
  - intros c t Hc s1. subst s1. rewrite (step_push_request s u c t Hag Hu Hc). simpl.
    apply step_get_request_found; [done|by apply minted_nonempty; eexists|].
    rewrite user_entries_pushed, decide_True by done. apply lookup_insert_eq.
  - intros x c Hpop s1. subst s1.
    destruct (snoc_or_nil (user_order s u)) as [Ho|(order' & x' & Ho)].
    { by rewrite (step_pop_request_empty s u Hu Ho) in Hpop. }
    rewrite (step_pop_request s u order' x' Hag Hu Ho) in Hpop |- *.
    simpl in *. injection Hpop as -> _.
    apply step_get_request_missing; [done| |].
    + apply minted_nonempty, (reachable_minted s Hs u). left.
      rewrite Ho. apply elem_of_app. right. by left.
    + rewrite user_entries_popped, decide_True by done. apply lookup_delete_eq.
  - intros s1. subst s1.
    destruct (step_clear_request s u Hu) as (_ & He & Ho). split.
    + intros x Hx. apply step_get_request_missing; [done..|].
      rewrite He. apply lookup_empty.
    + apply step_pop_request_empty; [done|]. by apply Ho.
Qed.

Lemma X9_identifier_lifetime_witness :
  step (get_request "u1" (new_context_id "4e5f6a7b"))
    (step (push_request "u1" (JStr "b") "4e5f6a7b") one_push_store).2
    = (R_found (new_context_id "4e5f6a7b") (JStr "b"),
       (step (push_request "u1" (JStr "b") "4e5f6a7b") one_push_store).2) ∧
  step (get_request "u1" "ctx_0a1b2c3d")
    (step (user_request "pop_context" "u1") one_push_store).2
    = (not_found "ctx_0a1b2c3d" "u1",
       (step (user_request "pop_context" "u1") one_push_store).2) ∧
  step (user_request "pop_context" "u1")
    (step (user_request "clear_contexts" "u1") one_push_store).2
    = (no_contexts_to_pop, (step (user_request "clear_contexts" "u1") one_push_store).2).
Proof.
  destruct (X9_identifier_lifetime one_push_store "u1"
              (reachable_fresh_reachable _ one_push_store_fresh) ltac:(discriminate))
    as (H1 & H2 & _ & H3).
  split_and!.
  - apply H1. reflexivity.
  - apply (H2 "ctx_0a1b2c3d" (JObj [("q", JStr "a")])). vm_compute. reflexivity.
  - exact H3.
Defined.

(** ** A push on an identifier already held *)

(** X10: a push never checks its identifier against those in use.  Where
    the invariant of the data model holds and the token makes an identifier
    the user already holds, the push still succeeds: it replaces the
    context stored under the identifier, adds no entry, and appends the
    identifier to the order a second time, so that the order is one longer
    than the entries and the invariant is lost. *)
Theorem X10_push_on_held_identifier (s : store) (u uuid8 : string) (c : json) :
  store_invariant s → u ≠ "" → truthy c = true →
  is_Some (user_entries s u !! new_context_id uuid8) →
  let s1 := (step (push_request u c uuid8) s).2 in
  (step (push_request u c uuid8) s).1 = R_pushed (new_context_id uuid8) ∧
  user_entries s1 u !! new_context_id uuid8 = Some c ∧
  dom (user_entries s1 u) = dom (user_entries s u) ∧
  user_order s1 u = user_order s u ++ [new_context_id uuid8] ∧
  length (user_order s1 u) = S (size (user_entries s1 u)) ∧
  ¬ lockstep s1 u.
Proof.
  intros Hinv Hu Hc Hheld s1. subst s1.
  pose proof (store_invariant_agree s Hinv) as Hag.
  destruct (store_invariant_lockstep s u Hinv) as [Hnd Hdom].
  rewrite (step_push_request s u c uuid8 Hag Hu Hc). simpl.
  rewrite user_entries_pushed, user_order_pushed, !decide_True by done.
  assert (dom (<[new_context_id uuid8:=c]> (user_entries s u)) = dom (user_entries s u))
    as Hd.
  { rewrite dom_insert_L. apply elem_of_dom in Hheld. set_solver. }
  assert (new_context_id uuid8 ∈ user_order s u) as Hin.
  { apply (elem_of_list_to_set (C:=gset string)). rewrite Hdom. by apply elem_of_dom. }
  split_and!; [done|apply lookup_insert_eq|done|done| |].
  - rewrite length_app, <- size_dom, Hd, <- Hdom, size_list_to_set by done.
    simpl. lia.
  - intros [Hnd' _]. rewrite user_order_pushed, decide_True in Hnd' by done.
    apply NoDup_app in Hnd' as (_ & Hnotin & _).
    apply (Hnotin _ Hin). by left.
Qed.

Lemma X10_push_on_held_identifier_witness :
  let s1 := (step (push_request "u1" (JStr "b") "0a1b2c3d") one_push_store).2 in
  (step (push_request "u1" (JStr "b") "0a1b2c3d") one_push_store).1
    = R_pushed (new_context_id "0a1b2c3d") ∧
  user_entries s1 "u1" !! new_context_id "0a1b2c3d" = Some (JStr "b") ∧
  dom (user_entries s1 "u1") = dom (user_entries one_push_store "u1") ∧
  user_order s1 "u1" = user_order one_push_store "u1" ++ [new_context_id "0a1b2c3d"] ∧
  length (user_order s1 "u1") = S (size (user_entries s1 "u1")) ∧
  ¬ lockstep s1 "u1".
Proof.
  apply (X10_push_on_held_identifier one_push_store "u1" "0a1b2c3d" (JStr "b")).
  - apply reachable_fresh_invariant, one_push_store_fresh.
  - discriminate.
  - reflexivity.
  - exists (JObj [("q", JStr "a")]). vm_compute. reflexivity.
Defined.

(** ** The order of the handler's checks *)



(** * The replies of the relay *)

(** What [httpx] hands back for the upstream call: the status code, the raw
    content, what [response.json()] does (it yields a value, or raises an
    exception of which [str(e)] is kept), and the headers as
    [dict(response.headers)]. *)
Record upstream_response : Type := UpstreamResponse {
  response_status_code : Z;
  response_content : list Byte.byte;
  response_json : string + json;
  response_headers : gmap string string
}.

(** How the [async with] block of the relay ends: with a response, with an
    [httpx.RequestError], or with another exception; the errors carry
    [str(e)]. *)
Inductive upstream_outcome : Type :=
| Upstream_returned (response : upstream_response)
| Upstream_request_error (message : string)
| Upstream_failure (message : string).

(** The two assignments that add the CORS headers to a dictionary. *)
Definition add_cors (headers : gmap string string) : gmap string string :=
  <["Access-Control-Allow-Credentials" := "false"]>
    (<["Access-Control-Allow-Origin" := "*"]> headers).

(** [response.json() if content else {}] *)
Definition upstream_json (response : upstream_response) : string + json :=
  match response_content response with
  | [] => inr (JObj [])
  | _ :: _ => response_json response
  end.

(** The second half of [proxy], the same in both relays: from the outcome
    of the upstream POST to the reply.  The [JSONResponse] is built inside
    the [try]; [render content] is the message of the exception its
    rendering of [content] raises, if it raises (the framework refuses the
    floats that are no numbers of JSON). *)
Definition proxy_reply (render : json → option string)
    (outcome : upstream_outcome) : json_response :=
  match outcome with
  | Upstream_returned response =>
      let headers := add_cors (response_headers response) in
      match upstream_json response with
      | inr content =>
          match render content with
          | None => JSONResponse content (response_status_code response) headers
          | Some message => error_reply ("Unexpected error: " +:+ message)
          end
      | inl message => error_reply ("Unexpected error: " +:+ message)
      end
  | Upstream_request_error message => error_reply ("Error forwarding request: " +:+ message)
  | Upstream_failure message => error_reply ("Unexpected error: " +:+ message)
  end.

(** [get_openapi_json] of src/context7-mcp-update/relay.py, from the
    outcome of the upstream GET; its one [except] clause takes every
    exception. *)
Definition get_openapi_json_reply (render : json → option string)
    (outcome : upstream_outcome) : json_response :=
  match outcome with
  | Upstream_returned response =>
      let headers := add_cors (response_headers response) in
      match response_json response with
      | inr content =>
          match render content with
          | None => JSONResponse content (response_status_code response) headers
          | Some message => error_reply ("Error fetching OpenAPI schema: " +:+ message)
          end
      | inl message => error_reply ("Error fetching OpenAPI schema: " +:+ message)
      end
  | Upstream_request_error message
  | Upstream_failure message => error_reply ("Error fetching OpenAPI schema: " +:+ message)
  end.

(** [options_proxy], the answer to a CORS preflight; the status is the
    default of [JSONResponse]. *)
Definition options_proxy (endpoint : string) : json_response :=
  JSONResponse (JObj []) 200%Z
    {[ "Access-Control-Allow-Origin" := "*";
       "Access-Control-Allow-Methods" := "GET, POST, OPTIONS";
       "Access-Control-Allow-Headers" := "Content-Type, Authorization";
       "Access-Control-Allow-Credentials" := "false";
       "Access-Control-Max-Age" := "86400" ]}.

(** The reply lets any origin read it, without credentials. *)
Definition permissive_cors (reply : json_response) : Prop :=
  reply_headers reply !! "Access-Control-Allow-Origin" = Some "*" ∧
  reply_headers reply !! "Access-Control-Allow-Credentials" = Some "false".

Lemma add_cors_lookup headers k :
  add_cors headers !! k =
    if decide (k = "Access-Control-Allow-Credentials") then Some "false"
    else if decide (k = "Access-Control-Allow-Origin") then Some "*"
    else headers !! k.
Proof.
  unfold add_cors. rewrite !lookup_insert.
  repeat case_decide; try done; congruence.
Qed.

Lemma error_reply_cors message : permissive_cors (error_reply message).
Proof. split; vm_compute; reflexivity. Qed.

Lemma add_cors_permissive content status headers :
  permissive_cors (JSONResponse content status (add_cors headers)).
Proof. split; simpl; by rewrite add_cors_lookup. Qed.

(** X12: every reply the relay builds carries
    [Access-Control-Allow-Origin: *] and
    [Access-Control-Allow-Credentials: false], on the error paths as on the
    others: the reply of [proxy] and of [get_openapi_json] for every
    outcome of the upstream call, and the preflight answer of
    [options_proxy]. *)
Theorem X12_relay_replies_allow_any_origin (render : json → option string)
    (outcome : upstream_outcome) (endpoint : string) :
  permissive_cors (proxy_reply render outcome) ∧
  permissive_cors (get_openapi_json_reply render outcome) ∧
  permissive_cors (options_proxy endpoint).
Proof.
  split_and!.
  - destruct outcome as [response| |]; simpl; try apply error_reply_cors.
    destruct (upstream_json response) as [message|content]; [apply error_reply_cors|].
    destruct (render content); [apply error_reply_cors|apply add_cors_permissive].
  - destruct outcome as [response| |]; simpl; try apply error_reply_cors.
    destruct (response_json response) as [message|content]; [apply error_reply_cors|].
    destruct (render content); [apply error_reply_cors|apply add_cors_permissive].
  - split; vm_compute; reflexivity.
Qed.



(** * What the server documents *)

(** An entry of [CONTEXT_FUNCTIONS]: its description, its dictionary of
    parameters, and its example. *)
Record function_info : Type := FunctionInfo {
  info_description : string;
  info_parameters : list (string * json);
  info_example : option json
}.

Definition parameter_schema (type description : string) : json :=
  JObj [("type", JStr type); ("description", JStr description)].

Definition function_call (name : string) (parameters : list (string * json)) : json :=
  JObj [("function_call", JObj [("name", JStr name); ("parameters", JObj parameters)])].

(** The dictionary of src/context7-mcp-update/context7_server.py, in the
    order it is written. *)
Definition CONTEXT_FUNCTIONS : list (string * function_info) :=
  [("push_context",
    FunctionInfo "Add a new context to the stack"
      [("user_id", parameter_schema "string" "ID of the user");
       ("context", parameter_schema "object" "Context data to push")]
      (Some (function_call "push_context"
         [("user_id", JStr "user_123");
          ("context",
            JObj [("query", JStr "How to implement authentication?");
                  ("results",
                    JArr [JObj [("id", JStr "doc_1");
                                ("title", JStr "Authentication Guide");
                                ("content", JStr "...")]])])])));
   ("pop_context",
    FunctionInfo "Remove the most recent context from the stack"
      [("user_id", parameter_schema "string" "ID of the user")]
      (Some (function_call "pop_context" [("user_id", JStr "user_123")])));
   ("list_contexts",
    FunctionInfo "List all contexts in the stack"
      [("user_id", parameter_schema "string" "ID of the user")]
      (Some (function_call "list_contexts" [("user_id", JStr "user_123")])));
   ("get_context",
    FunctionInfo "Get a specific context by ID"
      [("user_id", parameter_schema "string" "ID of the user");
       ("context_id", parameter_schema "string" "ID of the context to retrieve")]
      (Some (function_call "get_context"
         [("user_id", JStr "user_123"); ("context_id", JStr "ctx_456")])));
   ("clear_contexts",
    FunctionInfo "Clear all contexts from the stack"
      [("user_id", parameter_schema "string" "ID of the user")]
      (Some (function_call "clear_contexts" [("user_id", JStr "user_123")])))].

(** [root], the answer to [GET /]. *)
Definition root : json :=
  JObj [("name", JStr "Context7 MCP Server");
        ("version", JStr "1.0.0");
        ("description", JStr "MCP server for context management operations");
        ("functions", JArr (map (λ entry, JStr entry.1) CONTEXT_FUNCTIONS));
        ("documentation", JStr "/openapi.json")].

Definition no_security : json := JArr [JObj [("none", JArr [])]].

(** The value the dictionary comprehension of [get_openapi_schema_data]
    gives the path of one function. *)
Definition path_item (info : function_info) : json :=
  JObj [("post",
    JObj [("summary", JStr (info_description info));
          ("security", no_security);
          ("requestBody",
            JObj [("content",
              JObj [("application/json",
                JObj [("schema",
                        JObj [("type", JStr "object");
                              ("properties", JObj (info_parameters info))]);
                      ("example", default (JObj []) (info_example info))])])]);
          ("responses",
            JObj [("200",
              JObj [("description", JStr "Successful response");
                    ("content",
                      JObj [("application/json",
                        JObj [("schema", JObj [("type", JStr "object")])])])])])])].

(** [get_openapi_schema_data] *)
Definition get_openapi_schema_data : json :=
  JObj [("openapi", JStr "3.0.0");
        ("info",
          JObj [("title", JStr "Context7 MCP API");
                ("description", JStr "API for context management operations");
                ("version", JStr "1.0.0")]);
        ("security", no_security);
        ("components",
          JObj [("securitySchemes",
            JObj [("none",
              JObj [("type", JStr "http");
                    ("scheme", JStr "bearer");
                    ("description",
                      JStr "No authentication required. This API is open.")])])]);
        ("paths",
          JObj (map (λ entry, ("/mcp/" +:+ entry.1, path_item entry.2)) CONTEXT_FUNCTIONS))].

(** [d[k]] on a JSON object, [None] where Python raises [KeyError]. *)
Definition json_item (k : string) (j : json) : option json :=
  match j with
  | JObj fields => snd <$> find (λ field, String.eqb field.1 k) fields
  | _ => None
  end.

(** The keys of a JSON object, in order. *)
Definition json_keys (j : json) : list string :=
  match j with
  | JObj fields => map fst fields
  | _ => []
  end.

(** The function names [GET /] advertises. *)
Definition advertised_functions : list string :=
  match json_item "functions" root with
  | Some (JArr names) => omap (λ name, match name with JStr f => Some f | _ => None end) names
  | _ => []
  end.

(** The paths the OpenAPI schema documents. *)
Definition documented_paths : list string :=
  from_option json_keys [] (json_item "paths" get_openapi_schema_data).

(** The dispatcher serves the function: it never answers a dictionary of
    parameters with "not supported". *)
Definition served (function_name : string) : Prop :=
  ∀ p uuid8 s,
    (handle_mcp_request function_name (Body_json p) uuid8 s).1 ≠ not_supported function_name.

Lemma served_iff function_name : served function_name ↔ function_name ∈ function_names.
Proof.
  split.
  - intros Hserved.
    destruct (decide (function_name ∈ function_names)) as [|Hnotin]; [done|].
    destruct (Hserved no_parameters "" empty_store).
    rewrite (handle_cases _ (Body_json _) _ _ _ eq_refl).
    unfold function_names in Hnotin.
    repeat (case_decide; [subst; set_solver|]). done.
  - intros Hin p uuid8 s. by apply operations_supported.
Qed.

(** X14: the server documents exactly what it serves.  A function name is
    among the "functions" that [GET /] advertises exactly when the
    dispatcher serves it, and the OpenAPI schema documents the path
    "/mcp/<name>" exactly when the dispatcher serves <name>; no other path
    is documented. *)
Theorem X14_documented_is_served (function_name path : string) :
  (function_name ∈ advertised_functions ↔ served function_name) ∧
  ("/mcp/" +:+ function_name ∈ documented_paths ↔ served function_name) ∧
  (path ∈ documented_paths → ∃ f, path = "/mcp/" +:+ f ∧ served f).
Proof.
  assert (advertised_functions = function_names) as Ha by (vm_compute; reflexivity).
  assert (documented_paths = map (λ f, "/mcp/" +:+ f) function_names) as Hd
    by (vm_compute; reflexivity).
  rewrite Ha, Hd. split_and!.
  - by rewrite served_iff.
  - rewrite served_iff, list_elem_of_fmap. split; [|intros Hf; by exists function_name].
    intros (f & Heq & Hf). cbv [String.append] in Heq. injection Heq as Heq. by subst.
  - intros (f & -> & Hf)%list_elem_of_fmap. exists f. by rewrite served_iff.
Qed.

(** ** Documented parameters and required parameters *)

(** The parameter names [CONTEXT_FUNCTIONS] documents for a function. *)
Definition documented_parameters (function_name : string) : list string :=
  from_option (λ entry, map fst (info_parameters entry.2)) []
    (find (λ entry, String.eqb entry.1 function_name) CONTEXT_FUNCTIONS).

(** [parameters.get(name)] is truthy. *)
Definition supplied (name : string) (p : parameters) : bool :=
  if String.eqb name "user_id" then bool_decide (is_Some (required_str (param_user_id p)))
  else if String.eqb name "context" then bool_decide (is_Some (required_json (param_context p)))
  else if String.eqb name "context_id" then
    bool_decide (is_Some (required_str (param_context_id p)))
  else false.

(** ["<name> parameter is required"] *)
Definition parameter_required (name : string) : response :=
  R_error (name +:+ " parameter is required").

Lemma bool_decide_is_Some_false {A} (o : option A) :
  bool_decide (is_Some o) = false → o = None.
Proof.
  intros H%bool_decide_eq_false. destruct o; [|done]. destruct H. by eexists.
Qed.

Lemma bool_decide_is_Some_true {A} (o : option A) :
  bool_decide (is_Some o) = true → ∃ x, o = Some x.
Proof. intros H%bool_decide_eq_true. destruct H as [x ->]. by exists x. Qed.

(** X15: the parameters documented for a function are the ones its handler
    demands, in the documented order.  For each of the five functions, when
    some documented parameter is absent or empty the call is refused with
    "<name> parameter is required" for the first such parameter in the
    order of [CONTEXT_FUNCTIONS], and the store is left as it is; when all
    documented parameters are supplied the call is not refused for want of
    any parameter. *)
Theorem X15_documented_parameters_are_required
    (function_name : string) (p : parameters) (uuid8 : string) (s : store) :
  function_name ∈ function_names →
  match find (λ name, negb (supplied name p)) (documented_parameters function_name) with
  | Some name =>
      handle_mcp_request function_name (Body_json p) uuid8 s = (parameter_required name, s)
  | None =>
      ∀ name, (handle_mcp_request function_name (Body_json p) uuid8 s).1
                ≠ parameter_required name
  end.
Proof.
  intros Hin. unfold function_names in Hin.
  rewrite (handle_cases _ (Body_json _) _ _ _ eq_refl).
  repeat (apply elem_of_cons in Hin as [->|Hin]); [..|by apply elem_of_nil in Hin];
    cbn [documented_parameters CONTEXT_FUNCTIONS find String.eqb Ascii.eqb Bool.eqb
         from_option info_parameters fst snd map supplied negb decide]; simpl.
  - unfold push_context.
    destruct (bool_decide (is_Some (required_str (param_user_id p)))) eqn:Hu; simpl.
    + apply bool_decide_is_Some_true in Hu as [u ->].
      destruct (bool_decide (is_Some (required_json (param_context p)))) eqn:Hc; simpl.
      * apply bool_decide_is_Some_true in Hc as [c ->]. intros name.
        by repeat case_match.
      * by apply bool_decide_is_Some_false in Hc as ->.
    + by apply bool_decide_is_Some_false in Hu as ->.
  - unfold pop_context.
    destruct (bool_decide (is_Some (required_str (param_user_id p)))) eqn:Hu; simpl.
    + apply bool_decide_is_Some_true in Hu as [u ->]. intros name.
      by repeat case_match.
    + by apply bool_decide_is_Some_false in Hu as ->.
  - unfold list_contexts.
    destruct (bool_decide (is_Some (required_str (param_user_id p)))) eqn:Hu; simpl.
    + apply bool_decide_is_Some_true in Hu as [u ->]. intros name.
      by repeat case_match.
    + by apply bool_decide_is_Some_false in Hu as ->.
  - unfold get_context.
    destruct (bool_decide (is_Some (required_str (param_user_id p)))) eqn:Hu; simpl.
    + apply bool_decide_is_Some_true in Hu as [u ->].
      destruct (bool_decide (is_Some (required_str (param_context_id p)))) eqn:Hc; simpl.
      * apply bool_decide_is_Some_true in Hc as [c ->]. intros name.
        by repeat case_match.
      * by apply bool_decide_is_Some_false in Hc as ->.
    + by apply bool_decide_is_Some_false in Hu as ->.
  - unfold clear_contexts.
    destruct (bool_decide (is_Some (required_str (param_user_id p)))) eqn:Hu; simpl.
    + apply bool_decide_is_Some_true in Hu as [u ->]. intros name.
      by repeat case_match.
    + by apply bool_decide_is_Some_false in Hu as ->.
Qed.

Lemma X15_documented_parameters_are_required_witness :
  handle_mcp_request "get_context" (Body_json (Parameters (Some "u1") None None)) ""
    one_push_store
    = (parameter_required "context_id", one_push_store).
Proof.
  apply (X15_documented_parameters_are_required "get_context"
           (Parameters (Some "u1") None None) "" one_push_store).
  unfold function_names. set_solver.
Defined.

(** * The relay and the caller's credential *)

Lemma strip_authorization_insert k v headers :
  k = "authorization" ∨ k = "Authorization" →
  strip_authorization (<[k := v]> headers) = strip_authorization headers.
Proof.
  intros Hk. apply map_eq. intros k'. rewrite !strip_authorization_lookup.
  case_decide as Hk'; [done|]. rewrite lookup_insert_ne; [done|].
  intros ->. by apply Hk'.
Qed.

(** The whole of [proxy]: the POST is built, or the logging block fails
    and its reply is returned; [upstream] stands for what the network and
    the upstream server make of the POST, and the reply is built from the
    outcome. *)
Definition relay
    (proxy : (list Byte.byte → loads_outcome) → string → string → list Byte.byte →
             gmap string string → json_response + upstream_post)
    (json_loads : list Byte.byte → loads_outcome)
    (render : json → option string)
    (upstream : upstream_post → upstream_outcome)
    (UPSTREAM_URL endpoint : string) (body : list Byte.byte)
    (request_headers : gmap string string) : json_response :=
  match proxy json_loads UPSTREAM_URL endpoint body request_headers with
  | inl reply => reply
  | inr post => proxy_reply render (upstream post)
  end.

(** X16: what the caller sends under the header names "authorization" and
    "Authorization" has no influence on the relay: setting, changing or
    dropping either header in the inbound map leaves the POST that either
    relay sends upstream the same, and with it the reply, whatever the
    upstream does with the POST. *)
Theorem X16_caller_credential_has_no_influence
    (json_loads : list Byte.byte → loads_outcome)
    (render : json → option string)
    (upstream : upstream_post → upstream_outcome)
    (UPSTREAM_URL endpoint k v : string) (body : list Byte.byte)
    (request_headers : gmap string string) :
  k = "authorization" ∨ k = "Authorization" →
  McpUpdateRelay.proxy json_loads UPSTREAM_URL endpoint body (<[k := v]> request_headers)
    = McpUpdateRelay.proxy json_loads UPSTREAM_URL endpoint body request_headers ∧
  RelayUpdateRelay.proxy json_loads UPSTREAM_URL endpoint body (<[k := v]> request_headers)
    = RelayUpdateRelay.proxy json_loads UPSTREAM_URL endpoint body request_headers ∧
  McpUpdateRelay.proxy json_loads UPSTREAM_URL endpoint body (delete k request_headers)
    = McpUpdateRelay.proxy json_loads UPSTREAM_URL endpoint body request_headers ∧
  RelayUpdateRelay.proxy json_loads UPSTREAM_URL endpoint body (delete k request_headers)
    = RelayUpdateRelay.proxy json_loads UPSTREAM_URL endpoint body request_headers ∧
  relay McpUpdateRelay.proxy json_loads render upstream UPSTREAM_URL endpoint body
      (<[k := v]> request_headers)
    = relay McpUpdateRelay.proxy json_loads render upstream UPSTREAM_URL endpoint body
        request_headers ∧
  relay RelayUpdateRelay.proxy json_loads render upstream UPSTREAM_URL endpoint body
      (<[k := v]> request_headers)
    = relay RelayUpdateRelay.proxy json_loads render upstream UPSTREAM_URL endpoint body
        request_headers.
Proof.
  intros Hk.
  assert (strip_authorization (delete k request_headers) = strip_authorization request_headers)
    as Hdel.
  { apply map_eq. intros k'. rewrite !strip_authorization_lookup.
    case_decide as Hk'; [done|]. rewrite lookup_delete_ne; [done|].
    intros ->. by apply Hk'. }
  unfold relay, McpUpdateRelay.proxy, RelayUpdateRelay.proxy.
  by rewrite (strip_authorization_insert k v request_headers Hk), Hdel.
Qed.

Lemma X16_caller_credential_has_no_influence_witness :
  McpUpdateRelay.proxy (λ _, Loads_value) "https://context7-mcp.fly.dev" "pop_context" []
    (<["authorization" := "Bearer other-token"]> bearer_headers)
  = McpUpdateRelay.proxy (λ _, Loads_value) "https://context7-mcp.fly.dev" "pop_context" []
      bearer_headers.
Proof.
  apply (X16_caller_credential_has_no_influence
           (λ _, Loads_value) (λ _, None) (λ _, Upstream_failure "")
           "https://context7-mcp.fly.dev" "pop_context"
           "authorization" "Bearer other-token" [] bearer_headers).
  by left.
Defined.

(** * When the invariant is lost *)

Lemma call_result_lockstep_pushed r s resp s' :
  call_result r s resp s' →
  (∀ u x, request_user r = Some u → resp = R_pushed x → user_entries s u !! x = None) →
  (∀ u, lockstep s u) → ∀ u, lockstep s' u.
Proof.
  intros H Hfresh Hinv u'.
  destruct H as [| | |p u c Hf Hp Hu Hc|p u order' x Hf Hp Hu Ho|p u Hf Hp Hu Hm|]; try done.
  - specialize (Hfresh u _ (request_user_Some r p u Hp Hu) eq_refl). unfold lockstep.
    rewrite user_order_pushed, user_entries_pushed.
    case_decide as Hd; [subst u'|apply Hinv].
    destruct (Hinv u) as [Hnd Hdom]. split.
    + apply NoDup_app. split_and!; [done| |apply NoDup_singleton].
      intros y Hy ->%list_elem_of_singleton.
      apply not_elem_of_dom in Hfresh. apply Hfresh. rewrite <- Hdom.
      by apply elem_of_list_to_set.
    + rewrite list_to_set_app_L, dom_insert_L, Hdom. set_solver.
  - unfold lockstep. rewrite user_order_popped, user_entries_popped.
    case_decide as Hd; [subst u'|apply Hinv].
    destruct (Hinv u) as [Hnd Hdom]. rewrite Ho in Hnd, Hdom.
    apply NoDup_app in Hnd as (Hnd & Hnotin & _). split; [done|].
    rewrite dom_delete_L, <- Hdom, list_to_set_app_L.
    assert (x ∉ order') as Hx by (intros Hx; apply (Hnotin x Hx); set_solver).
    set_solver.
  - unfold lockstep. rewrite user_order_cleared, user_entries_cleared.
    case_decide as Hd; [subst u'|apply Hinv].
    split; [constructor|set_solver].
Qed.

Lemma pushed_on_held_breaks_lockstep s u x c :
  lockstep s u → is_Some (user_entries s u !! x) → ¬ lockstep (pushed u x c s) u.
Proof.
  intros [Hnd Hdom] Hheld [Hnd' _].
  rewrite user_order_pushed, decide_True in Hnd' by done.
  apply NoDup_app in Hnd' as (_ & Hnotin & _).
  apply (Hnotin x); [|by left].
  apply (elem_of_list_to_set (C:=gset string)). rewrite Hdom. by apply elem_of_dom.
Qed.

(** X17: the one way the invariant of the data model is lost.  From a
    store in which it holds, a call leads to a store in which it holds
    again exactly unless the call is a push that answers with an
    identifier its user already held; pops, clears, reads and refused calls
    always keep it. *)
Theorem X17_invariant_lost_only_by_collision (r : request) (s : store) :
  store_invariant s →
  (store_invariant (step r s).2 ↔
   ∀ u x, request_user r = Some u → (step r s).1 = R_pushed x →
          user_entries s u !! x = None).
Proof.
  intros Hinv. pose proof (store_invariant_agree s Hinv) as Hag.
  pose proof (step_call_result r s Hag) as H. split.
  - intros Hinv' u x Hr Hresp.
    destruct (user_entries s u !! x) as [c0|] eqn:Hheld; [exfalso|done].
    destruct (step r s) as [resp s']. simpl in *.
    destruct H as [resp Herr| | |p u' c Hf Hp Hu Hc| | |]; try done;
      [by subst resp|].
    injection Hresp as <-.
    rewrite (request_user_Some r p u' Hp Hu) in Hr. injection Hr as ->.
    apply (pushed_on_held_breaks_lockstep s u (new_context_id (req_uuid8 r)) c).
    + by apply store_invariant_lockstep.
    + by rewrite Hheld.
    + by apply store_invariant_lockstep.
  - intros Hfresh. apply store_invariant_intro; [by apply step_agree|].
    apply (call_result_lockstep_pushed r s _ _ H Hfresh).
    intros u. by apply store_invariant_lockstep.
Qed.

Lemma X17_invariant_lost_only_by_collision_witness :
  store_invariant (step (user_request "pop_context" "u1") one_push_store).2.
Proof.
  apply (proj2 (X17_invariant_lost_only_by_collision (user_request "pop_context" "u1")
                  one_push_store (reachable_fresh_invariant _ one_push_store_fresh))).
  intros u x _ Hresp. vm_compute in Hresp. discriminate.
Defined.
